(** * LogLog-Beta cardinality sketch (loglogbeta.go)

    A shallow embedding of the Go package [loglogbeta] and the properties
    of its hash splitter, register updates, merge, estimator and codec.

    Conventions of the embedding:
    - [uint8], [uint32], [uint64] and [int] values are integers of [Z];
      where the Go code can wrap around, the reduction is written out;
    - [float64] values are the binary64 primitive floats of [PrimFloat];
      every arithmetic operation of the source is one rounded operation
      here (no fused multiply-add);
    - the fixed array [[m]uint8] is a [list Z] whose length is [m];
    - sketches are reached through pointers ([*LogLogBeta]), so they live
      in a store and every method takes the receiver's address;
    - the packages the file imports ([math], [encoding/gob], [go-bits],
      [go-metro]) are not part of the repository: their functions are
      the fields of the classes [MathPkg], [MetroPkg] and [GobPkg], over
      which every result is stated, apart from [bits.Clz], whose meaning
      (count leading zeros) is written out. *)

From Stdlib Require Import ZArith Lia Floats.
From stdpp Require Import gmap list.

Set Warnings "-inexact-float".

Local Open Scope Z_scope.

(** ** Constants (loglogbeta.go, lines 12-18) *)

Definition precision : Z := 14.
Definition m : Z := Z.shiftl 1 precision.
Definition max : Z := 64 - precision.
Definition MaxUint64 : Z := 2 ^ 64 - 1.
Definition maxX : Z := Z.shiftr MaxUint64 max.
Definition version : Z := 1.

(** Reduction of an integer to an unsigned machine width. *)
Definition wrap (w : Z) (x : Z) : Z := x mod 2 ^ w.

(** ** Hash splitter (lines 55-59) *)

(** [clz_from n x] counts the zero bits of [x] from bit [n-1] downwards,
    up to the first bit that is set. *)
Fixpoint clz_from (n : nat) (x : Z) : Z :=
  match n with
  | O => 0
  | S n' => if Z.testbit x (Z.of_nat n') then 0 else 1 + clz_from n' x
  end.

(** [bits.Clz] on a 64-bit word: the number of leading zero bits. *)
Definition Clz (x : Z) : Z := clz_from 64 x.

Definition getPosVal (x : Z) : Z * Z :=
  let val := wrap 8 (wrap 8 (Clz (Z.lxor (wrap 64 (Z.shiftl x precision)) maxX)) + 1) in
  let k := Z.shiftr x max in
  (k, val).

(** ** The sketch and its store (lines 61-71) *)

Record LogLogBeta := {
  llb_registers : list Z;   (* registers [m]uint8 *)
  llb_alpha : float         (* alpha     float64  *)
}.

Record savedLLB := {
  Registers : list Z;
  Alpha : float;
  Version : Z
}.

(** A [*LogLogBeta] is an address; the store holds the sketches that are
    live. An address the store does not hold (the nil pointer among them)
    cannot be dereferenced. *)
Abbreviation loc := positive.
Abbreviation store := (gmap positive LogLogBeta).

(** Computations that read and write the store and may panic. *)
Definition M (A : Type) : Type := store -> option (A * store).

Definition ret {A} (a : A) : M A := fun h => Some (a, h).

Definition bind {A B} (c : M A) (k : A -> M B) : M B :=
  fun h => match c h with
           | Some (a, h') => k a h'
           | None => None
           end.

Definition panic {A} : M A := fun _ => None.

Notation "'let*' x := c 'in' k" := (bind c (fun x => k))
  (at level 10, x name, c at level 100, k at level 200).

Definition load (l : loc) : M LogLogBeta :=
  fun h => match h !! l with
           | Some s => Some (s, h)
           | None => None
           end.

Definition put (l : loc) (s : LogLogBeta) : M unit :=
  fun h => Some (tt, <[l := s]> h).

Definition in_bounds (i : Z) (regs : list Z) : bool :=
  (0 <=? i) && (i <? Z.of_nat (length regs)).

(** [l.registers[i]]: an index out of range panics. *)
Definition get_register (l : loc) (i : Z) : M Z :=
  let* s := load l in
  match llb_registers s !! Z.to_nat i with
  | Some v => if in_bounds i (llb_registers s) then ret v else panic
  | None => panic
  end.

(** [l.registers[i] = v] *)
Definition set_register (l : loc) (i v : Z) : M unit :=
  let* s := load l in
  if in_bounds i (llb_registers s)
  then put l {| llb_registers := <[Z.to_nat i := v]> (llb_registers s);
                llb_alpha := llb_alpha s |}
  else panic.

(** [l.registers = regs] and [l.alpha = a] *)
Definition set_registers (l : loc) (regs : list Z) : M unit :=
  let* s := load l in
  put l {| llb_registers := regs; llb_alpha := llb_alpha s |}.

Definition set_alpha (l : loc) (a : float) : M unit :=
  let* s := load l in
  put l {| llb_registers := llb_registers s; llb_alpha := a |}.

(** ** Imported packages *)

(** [math.Log] and [math.Pow]. *)
Class MathPkg := {
  Log : float -> float;
  Pow : float -> float -> float
}.

(** The conversion [uint64(f)] truncates towards zero; when the result is
    not representable (NaN, infinities, negative or too large values) the
    Go specification leaves the value to the implementation. *)
Class Platform := {
  uint64_unrepresentable : float -> Z
}.

(** [metro.Hash64 (buffer, seed)]. *)
Class MetroPkg := {
  Hash64 : list Z -> Z -> Z
}.

(** [encoding/gob]: an encoder of a [savedLLB] into a byte buffer, and a
    decoder that fills the [savedLLB] it is handed and reports an error
    or none. *)
Class GobPkg := {
  go_error : Type;
  gob_encode : savedLLB -> list Z * option go_error;
  gob_decode : list Z -> savedLLB -> savedLLB * option go_error
}.

(** ** Conversions between integers and [float64] *)

Definition float64_of_Z (n : Z) : float := PrimFloat.of_uint63 (Uint63.of_Z n).

(** The integer part of a finite binary64 value, truncated towards zero. *)
Definition trunc_SF (f : spec_float) : option Z :=
  match f with
  | S754_zero _ => Some 0
  | S754_finite s mant e =>
      let a := if 0 <=? e then Z.pos mant * 2 ^ e else Z.pos mant / 2 ^ (- e) in
      Some (if s then - a else a)
  | S754_infinity _ | S754_nan => None
  end.

Definition uint64_of_float64 `{Platform} (f : float) : Z :=
  match trunc_SF (Prim2SF f) with
  | Some t => if (0 <=? t) && (t <? 2 ^ 64) then t
              else wrap 64 (uint64_unrepresentable f)
  | None => wrap 64 (uint64_unrepresentable f)
  end.

(** ** Estimator helpers (lines 20-53) *)

Definition beta `{MathPkg} (ez : float) : float :=
  let zl := Log (ez + 1) in
  (-0.370393911 * ez +
   0.070471823 * zl +
   0.17393686 * Pow zl 2 +
   0.16339839 * Pow zl 3 +
   -0.09237745 * Pow zl 4 +
   0.03738027 * Pow zl 5 +
   -0.005384159 * Pow zl 6 +
   0.00042419 * Pow zl 7)%float.

Definition alpha (mf : float) : float :=
  if (mf =? 16)%float then 0.673%float
  else if (mf =? 32)%float then 0.697%float
  else if (mf =? 64)%float then 0.709%float
  else (0.7213 / (1 + 1.079 / mf))%float.

(** One iteration of the loop of [regSumAndZeros]. *)
Definition regSumAndZeros_step `{MathPkg} (acc : float * float) (val : Z)
  : float * float :=
  let '(sum, ez) := acc in
  let ez := if val =? 0 then (ez + 1)%float else ez in
  let sum := (sum + 1 / Pow 2 (float64_of_Z val))%float in
  (sum, ez).

Definition regSumAndZeros `{MathPkg} (registers : list Z) : float * float :=
  fold_left regSumAndZeros_step registers (0%float, 0%float).

(** ** Methods of the sketch (lines 73-141) *)

Definition New : M loc :=
  fun h =>
    let l := fresh (dom h) in
    Some (l, <[l := {| llb_registers := replicate (Z.to_nat m) 0;
                       llb_alpha := alpha (float64_of_Z m) |}]> h).

Definition AddHash (llb : loc) (x : Z) : M unit :=
  let '(k, val) := getPosVal x in
  let* r := get_register llb k in
  if r <? val then set_register llb k val else ret tt.

Definition Add `{MetroPkg} (llb : loc) (value : list Z) : M unit :=
  let x := wrap 64 (Hash64 value 1337) in
  AddHash llb x.

Definition Cardinality `{MathPkg} `{Platform} (llb : loc) : M Z :=
  let* s := load llb in
  let '(sum, ez) := regSumAndZeros (llb_registers s) in
  let mf := float64_of_Z m in
  ret (uint64_of_float64
         (llb_alpha s * mf * (mf - ez) / (beta ez + sum))%float).

(** The loop of [Merge]: [vs] is what is left of the copy of
    [llb.registers] the range clause iterates over, [i] the index of its
    first element. [other] is read from the store at every iteration. *)
Fixpoint Merge_loop (llb other : loc) (i : Z) (vs : list Z) : M unit :=
  match vs with
  | [] => ret tt
  | v :: vs' =>
      let* o := get_register other i in
      let* _ := (if v <? o
                 then let* o' := get_register other i in
                      set_register llb i o'
                 else ret tt) in
      Merge_loop llb other (i + 1) vs'
  end.

Definition Merge (llb other : loc) : M unit :=
  let* s := load llb in
  Merge_loop llb other 0 (llb_registers s).

Definition MarshalBinary `{GobPkg} (llb : loc) : M (list Z * option go_error) :=
  let* s := load llb in
  ret (gob_encode {| Registers := llb_registers s;
                     Alpha := llb_alpha s;
                     Version := version |}).

(** The zero value of [savedLLB], as [var sllb savedLLB] declares it. *)
Definition savedLLB_zero : savedLLB :=
  {| Registers := replicate (Z.to_nat m) 0; Alpha := 0%float; Version := 0 |}.

Definition UnmarshalBinary `{GobPkg} (llb : loc) (data : list Z)
  : M (option go_error) :=
  let '(sllb, err) := gob_decode data savedLLB_zero in
  match err with
  | Some e => ret (Some e)
  | None =>
      let* _ := set_registers llb (Registers sllb) in
      let* _ := set_alpha llb (Alpha sllb) in
      ret None
  end.

(** ** The estimator as the specification words it

    [ez] is the number of registers equal to zero, [sum] adds up the
    terms 2^(-registers[i]) over the registers in index order, and
    [beta] is the polynomial with the eight listed coefficients. *)

Definition count_zeros (registers : list Z) : Z :=
  Z.of_nat (length (filter (fun v => v = 0) registers)).

(** 2^(-v) as the source forms it: the reciprocal of [math.Pow(2, v)]. *)
Definition pow2_neg `{MathPkg} (v : Z) : float :=
  (1 / Pow 2 (float64_of_Z v))%float.

Definition sum_spec `{MathPkg} (registers : list Z) : float :=
  fold_left (fun acc v => (acc + pow2_neg v)%float) registers 0%float.

Definition beta_coefficients : list (float * float) :=
  [ (0.17393686, 2); (0.16339839, 3); (-0.09237745, 4);
    (0.03738027, 5); (-0.005384159, 6); (0.00042419, 7) ]%float.

Definition beta_spec `{MathPkg} (ez : float) : float :=
  let zl := Log (ez + 1) in
  fold_left (fun acc ck => (acc + fst ck * Pow zl (snd ck))%float)
            beta_coefficients
            (-0.370393911 * ez + 0.070471823 * zl)%float.

Definition Cardinality_spec `{MathPkg} `{Platform} (s : LogLogBeta) : Z :=
  let ez := float64_of_Z (count_zeros (llb_registers s)) in
  let sum := sum_spec (llb_registers s) in
  uint64_of_float64
    (llb_alpha s * 16384 * (16384 - ez) / (beta_spec ez + sum))%float.

(** The register-wise maximum that [Merge] is specified to compute. *)
Definition merge_registers (a b : list Z) : list Z := zip_with Z.max a b.

(** The sketch behind a pointer that has it as its [savedLLB]. *)
Definition saved (s : LogLogBeta) : savedLLB :=
  {| Registers := llb_registers s; Alpha := llb_alpha s; Version := version |}.

(** A sketch is well formed when its register array has [m] entries. *)
Definition wf_sketch (s : LogLogBeta) : Prop :=
  length (llb_registers s) = Z.to_nat m.

(** Every sketch of the store is well formed. *)
Definition store_wf (h : store) : Prop :=
  forall l s, h !! l = Some s -> wf_sketch s.

(** Every register of [s] is at most the same register of [s']. *)
Definition registers_le (s s' : LogLogBeta) : Prop :=
  Forall2 Z.le (llb_registers s) (llb_registers s').

(** Every sketch of [h] is still in [h'], with registers that did not
    decrease. *)
Definition store_le (h h' : store) : Prop :=
  forall l s, h !! l = Some s ->
    exists s', h' !! l = Some s' /\ registers_le s s'.

(** A float that is neither NaN nor infinite, and one that moreover is
    not a zero. *)
Definition is_finite_SF (f : spec_float) : bool :=
  match f with
  | S754_zero _ | S754_finite _ _ _ => true
  | _ => false
  end.

Definition finite_float (f : float) : bool := is_finite_SF (Prim2SF f).

Definition finite_nonzero_float (f : float) : bool :=
  match Prim2SF f with
  | S754_finite _ _ _ => true
  | _ => false
  end.

(** ** Stand-ins for the imported packages

    The results below hold for every implementation of the imported
    functions. To run the embedding on concrete inputs, this module gives
    each package one executable instance: powers with an integral
    exponent by repeated multiplication, a logarithm by the series of the
    inverse hyperbolic tangent, an FNV-style hash, and a codec with the
    fixed layout version byte, eight bytes of [alpha] (its IEEE 754 bit
    pattern, big endian), then the [m] register bytes. *)
Module Ref.

Fixpoint pow_nat (x : float) (n : nat) : float :=
  match n with
  | O => 1%float
  | S n' => (x * pow_nat x n')%float
  end.

Definition pow_int (x y : float) : float :=
  match trunc_SF (Prim2SF y) with
  | Some t => if 0 <=? t then pow_nat x (Z.to_nat t)
              else (1 / pow_nat x (Z.to_nat (- t)))%float
  | None => nan
  end.

(** 2 * (s + s^3/3 + s^5/5 + ...), the first [n] terms from degree [k]. *)
Fixpoint atanh_series (n : nat) (s2 term : float) (k : Z) : float :=
  match n with
  | O => 0%float
  | S n' => (term / float64_of_Z k
             + atanh_series n' s2 (term * s2) (k + 2))%float
  end.

Definition ln2 : float := 0.6931471805599453%float.

Definition log_series (x : float) : float :=
  if (x <=? 0)%float then nan
  else
    let '(f, e) := Z.frexp x in
    let s := ((f - 1) / (f + 1))%float in
    (float64_of_Z (e + 2048) * ln2 - 2048 * ln2
     + 2 * atanh_series 30 (s * s) s 1)%float.

Definition math : MathPkg := {| Log := log_series; Pow := pow_int |}.

(** Unrepresentable conversions give the top bit alone. *)
Definition platform : Platform :=
  {| uint64_unrepresentable := fun _ => 2 ^ 63 |}.

Definition hash_step (h b : Z) : Z := wrap 64 (Z.lxor h b * 1099511628211).

Definition metro : MetroPkg :=
  {| Hash64 := fun value seed =>
       fold_left hash_step value (wrap 64 (14695981039346656037 + seed)) |}.

Definition float64_bits (f : float) : Z :=
  let sign (s : bool) := if s then 2 ^ 63 else 0 in
  match Prim2SF f with
  | S754_zero s => sign s
  | S754_infinity s => sign s + Z.shiftl 2047 52
  | S754_nan => Z.shiftl 4095 51
  | S754_finite s mant e =>
      sign s + (if Z.pos mant <? 2 ^ 52 then Z.pos mant
                else Z.shiftl (e + 1075) 52 + (Z.pos mant - 2 ^ 52))
  end.

Definition float64_frombits (b : Z) : float :=
  let s := Z.testbit b 63 in
  let ex := Z.land (Z.shiftr b 52) 2047 in
  let fr := Z.land b (2 ^ 52 - 1) in
  if ex =? 2047 then
    if fr =? 0 then (if s then neg_infinity else infinity) else nan
  else if ex =? 0 then
    if fr =? 0 then (if s then neg_zero else zero)
    else SF2Prim (S754_finite s (Z.to_pos fr) (-1074))
  else SF2Prim (S754_finite s (Z.to_pos (fr + 2 ^ 52)) (ex - 1075)).

Fixpoint be_bytes (n : nat) (z : Z) : list Z :=
  match n with
  | O => []
  | S n' => wrap 8 (Z.shiftr z (8 * Z.of_nat n')) :: be_bytes n' z
  end.

Definition be_value (bs : list Z) : Z :=
  fold_left (fun acc b => acc * 256 + b) bs 0.

Inductive codec_error := ErrEmpty | ErrUnexpectedEOF.

Definition encode (v : savedLLB) : list Z * option codec_error :=
  (wrap 8 (Version v) :: be_bytes 8 (float64_bits (Alpha v))
     ++ map (wrap 8) (Registers v), None).

(** A buffer that ends early leaves the destination half filled. *)
Definition decode (data : list Z) (dst : savedLLB)
  : savedLLB * option codec_error :=
  match data with
  | [] => (dst, Some ErrEmpty)
  | ver :: rest =>
      if (length rest <? 8 + Z.to_nat m)%nat
      then ({| Registers := Registers dst; Alpha := Alpha dst; Version := ver |},
            Some ErrUnexpectedEOF)
      else ({| Registers := take (Z.to_nat m) (drop 8 rest);
               Alpha := float64_frombits (be_value (take 8 rest));
               Version := ver |}, None)
  end.

Definition gob : GobPkg :=
  {| go_error := codec_error; gob_encode := encode; gob_decode := decode |}.

End Ref.

(** Counting in binary64 is exact on a range: adding one to the float
    of [n] gives the float of [n + 1] for the [k] integers from [n] on. *)
Fixpoint succ_exact_from (k : nat) (n : Z) : bool :=
  match k with
  | O => true
  | S k' => Leibniz.eqb (float64_of_Z n + 1)%float (float64_of_Z (n + 1))
            && succ_exact_from k' (n + 1)
  end.

(** The reciprocal of 2^v is the float 2^(-v) for every [uint8] value. *)
Definition recip_exact_below (N : nat) : bool :=
  forallb (fun n => Leibniz.eqb (1 / Z.ldexp 1 (Z.of_nat n))%float
                                (Z.ldexp 1 (- Z.of_nat n)))
          (seq 0 N).

(** ** Concrete sketches

    The sketch as [New] builds it, a sketch that has seen one hash, and a
    store that holds the two of them at the addresses 1 and 2. *)

Definition sketch_empty : LogLogBeta :=
  {| llb_registers := replicate (Z.to_nat m) 0;
     llb_alpha := alpha (float64_of_Z m) |}.

Definition sketch_one : LogLogBeta :=
  {| llb_registers := <[5%nat := 10]> (replicate (Z.to_nat m) 0);
     llb_alpha := alpha (float64_of_Z m) |}.

Definition store_two : store :=
  <[1%positive := sketch_empty]> (<[2%positive := sketch_one]> ∅).

(** A payload in the layout of [Ref.gob]: version 1, alpha 0.5
    (0x3FE0000000000000), all registers zero. *)
Definition payload_half : list Z :=
  1 :: [63; 224; 0; 0; 0; 0; 0; 0] ++ replicate (Z.to_nat m) 0.

(** Every sketch of [h] is still in [h'] with the alpha it had. *)
Definition alpha_preserved (h h' : store) : Prop :=
  forall l s, h !! l = Some s ->
    exists s', h' !! l = Some s' /\ llb_alpha s' = llb_alpha s.

(** ** Feeding a stream of hashes

    The loop of a caller that ingests the hashes [xs] one after the
    other, [for _, x := range xs { llb.AddHash(x) }]. *)
Fixpoint AddHash_all (llb : loc) (xs : list Z) : M unit :=
  match xs with
  | [] => ret tt
  | x :: xs' => let* _ := AddHash llb x in AddHash_all llb xs'
  end.

(** What one [AddHash] does to the register array alone. *)
Definition add_register (regs : list Z) (x : Z) : list Z :=
  match regs !! Z.to_nat (fst (getPosVal x)) with
  | Some r => <[Z.to_nat (fst (getPosVal x)) := Z.max r (snd (getPosVal x))]> regs
  | None => regs
  end.

Definition registers_after (xs : list Z) (regs : list Z) : list Z :=
  fold_left add_register xs regs.

(** The largest of [v0] and the ranks of the hashes of [xs] that are
    routed to register [j]. *)
Definition max_rank (j : Z) (xs : list Z) (v0 : Z) : Z :=
  fold_left (fun acc x => if fst (getPosVal x) =? j
                          then Z.max acc (snd (getPosVal x)) else acc) xs v0.

(** A 64-bit hash, and a list of them. *)
Definition is_uint64 (x : Z) : Prop := 0 <= x < 2 ^ 64.

(** The registers of a sketch hold ranks: values from 0 to
    [64 - precision + 1]. *)
Definition registers_bounded (s : LogLogBeta) : Prop :=
  Forall (fun v => 0 <= v <= 64 - precision + 1) (llb_registers s).

(** Every sketch of the store has [m] registers, all of them ranks. *)
Definition store_ok (h : store) : Prop :=
  forall l s, h !! l = Some s -> wf_sketch s /\ registers_bounded s.

(** The loop of a caller that ingests the values [vs],
    [for _, v := range vs { llb.Add(v) }]. *)
Fixpoint Add_all `{MetroPkg} (llb : loc) (vs : list (list Z)) : M unit :=
  match vs with
  | [] => ret tt
  | v :: vs' => let* _ := Add llb v in Add_all llb vs'
  end.

(** A third sketch, and a store with the three of them. *)
Definition sketch_two : LogLogBeta :=
  {| llb_registers := <[5%nat := 3]> (<[9%nat := 51]> (replicate (Z.to_nat m) 0));
     llb_alpha := alpha (float64_of_Z m) |}.

Definition store_three : store := <[3%positive := sketch_two]> store_two.

(** ** The saturated sketch

    Every register at the largest rank, 51, with the alpha [New]
    computes; and the float that the estimator's formula then yields when
    the correction [beta(0)] vanishes: [alpha * m * m / (m * 2^(-51))]. *)
Definition sketch_saturated : LogLogBeta :=
  {| llb_registers := replicate (Z.to_nat m) 51;
     llb_alpha := alpha (float64_of_Z m) |}.

Definition store_saturated : store := <[1%positive := sketch_saturated]> ∅.

Definition estimate_saturated : float :=
  (alpha (float64_of_Z m) * 16384 * 16384 / Z.ldexp 1 (-37))%float.

(** A math package whose logarithm is exact at 1, as [math.Log] is. *)
Definition math_exact_at_one : MathPkg :=
  {| Log := fun x => if (x =? 1)%float then 0%float else Ref.log_series x;
     Pow := Ref.pow_int |}.

(** ** The estimate and its floor

    The float that [Cardinality] converts, in the spec's words:
    [alpha * m * (m - ez) / (beta(ez) + sum)]. *)
Definition estimate `{MathPkg} (s : LogLogBeta) : float :=
  let ez := float64_of_Z (count_zeros (llb_registers s)) in
  (llb_alpha s * 16384 * (16384 - ez)
   / (beta_spec ez + sum_spec (llb_registers s)))%float.

(** [t] is the floor of the float [f]: of its value [v * 2^e], with [v]
    the signed mantissa, [t] is the integer with [t <= v * 2^e < t + 1].
    A NaN and the infinities have no floor. *)
Definition is_floor (f : float) (t : Z) : Prop :=
  match Prim2SF f with
  | S754_zero _ => t = 0
  | S754_finite s mant e =>
      let v := if s then Z.neg mant else Z.pos mant in
      if 0 <=? e then t = v * 2 ^ e
      else t * 2 ^ (- e) <= v < (t + 1) * 2 ^ (- e)
  | S754_infinity _ | S754_nan => False
  end.

(** ** A stand-in for [encoding/gob] that treats fields as gob does

    As [encoding/gob] documents the transmission of a struct: the fields
    are sent in order, each as the distance of its number from the field
    sent before it, followed by its value; a field that holds the zero
    value of its type is not sent, unless it is an array; a zero distance
    ends the struct. The decoder leaves a field that the message does not
    carry as it is in the destination. The values are laid out plainly
    here: the [m] bytes of [Registers], the eight bytes of the bits of
    [Alpha], the eight bytes of [Version] in two's complement. *)
Module Wire.

Inductive codec_error := ErrUnexpectedEOF | ErrBadField.

Definition int64_of_bits (u : Z) : Z := if u <? 2 ^ 63 then u else u - 2 ^ 64.

Definition encode (v : savedLLB) : list Z * option codec_error :=
  let alpha_sent := negb (Alpha v =? 0)%float in
  (1 :: map (wrap 8) (Registers v)
     ++ (if alpha_sent
         then 1 :: Ref.be_bytes 8 (Ref.float64_bits (Alpha v)) else [])
     ++ (if Version v =? 0 then []
         else (if alpha_sent then 1 else 2)
              :: Ref.be_bytes 8 (wrap 64 (Version v)))
     ++ [0], None).

(** The fields of a message, one per round; [prev] is the number of the
    field read last. An error leaves the destination as far as it was
    filled. *)
Fixpoint decode_fields (fuel : nat) (prev : Z) (data : list Z)
    (dst : savedLLB) : savedLLB * option codec_error :=
  match fuel with
  | O => (dst, Some ErrBadField)
  | S fuel' =>
      match data with
      | [] => (dst, Some ErrUnexpectedEOF)
      | delta :: rest =>
          if delta =? 0 then (dst, None)
          else if delta <? 0 then (dst, Some ErrBadField)
          else
            let field := prev + delta in
            if field =? 0 then
              if (length rest <? Z.to_nat m)%nat
              then (dst, Some ErrUnexpectedEOF)
              else decode_fields fuel' field (drop (Z.to_nat m) rest)
                     {| Registers := take (Z.to_nat m) rest;
                        Alpha := Alpha dst; Version := Version dst |}
            else if field =? 1 then
              if (length rest <? 8)%nat then (dst, Some ErrUnexpectedEOF)
              else decode_fields fuel' field (drop 8 rest)
                     {| Registers := Registers dst;
                        Alpha := Ref.float64_frombits
                                   (Ref.be_value (take 8 rest));
                        Version := Version dst |}
            else if field =? 2 then
              if (length rest <? 8)%nat then (dst, Some ErrUnexpectedEOF)
              else decode_fields fuel' field (drop 8 rest)
                     {| Registers := Registers dst; Alpha := Alpha dst;
                        Version := int64_of_bits
                                     (Ref.be_value (take 8 rest)) |}
            else (dst, Some ErrBadField)
      end
  end.

(** Field numbers grow, so three fields and the end mark are four rounds. *)
Definition decode (data : list Z) (dst : savedLLB)
  : savedLLB * option codec_error :=
  decode_fields 4 (-1) data dst.

Definition gob : GobPkg :=
  {| go_error := codec_error; gob_encode := encode; gob_decode := decode |}.

End Wire.

(** ** What gob promises of a [savedLLB]

    The values of the Go type: [m] registers that are bytes, a [Version]
    that is an [int]. *)
Definition is_uint8 (v : Z) : Prop := 0 <= v < 256.

Definition go_saved (v : savedLLB) : Prop :=
  length (Registers v) = Z.to_nat m /\ Forall is_uint8 (Registers v) /\
  - 2 ^ 63 <= Version v < 2 ^ 63.

Definition go_sketch (s : LogLogBeta) : Prop :=
  wf_sketch s /\ Forall is_uint8 (llb_registers s).

(** What a decoder that starts from the zero value reads back: an [Alpha]
    that compares equal to zero was not sent, and stays the positive
    zero of the destination. *)
Definition gob_received (v : savedLLB) : savedLLB :=
  {| Registers := Registers v;
     Alpha := if (Alpha v =? 0)%float then 0%float else Alpha v;
     Version := Version v |}.

(** The contract of the package on this struct: encoding does not fail,
    and decoding the bytes into a zero value gives [gob_received]. *)
Definition gob_contract `{GobPkg} : Prop :=
  forall v, go_saved v ->
    snd (gob_encode v) = None /\
    gob_decode (fst (gob_encode v)) savedLLB_zero = (gob_received v, None).

(** A sketch whose alpha is the negative zero, and a message in the
    layout of [Wire] that carries it: all registers zero, [Alpha] with
    the bits 0x8000000000000000, [Version] 1. *)
Definition sketch_negzero : LogLogBeta :=
  {| llb_registers := replicate (Z.to_nat m) 0; llb_alpha := (-0)%float |}.

Definition payload_negzero : list Z :=
  1 :: replicate (Z.to_nat m) 0
    ++ [1; 128; 0; 0; 0; 0; 0; 0; 0]
    ++ [1; 0; 0; 0; 0; 0; 0; 0; 1]
    ++ [0].

(** A message that carries nothing but [Alpha] = 0.5, and one that ends
    inside [Alpha] after a full [Registers]. *)
Definition payload_alpha_only : list Z := [2; 63; 224; 0; 0; 0; 0; 0; 0; 0].

Definition payload_cut : list Z :=
  1 :: <[5%nat := 7]> (replicate (Z.to_nat m) 0) ++ [1; 63; 224].

(** ** Properties of the hash splitter *)

Lemma clz_from_nonneg n x : 0 <= clz_from n x <= Z.of_nat n.
Proof.
  induction n as [|n IH]; cbn [clz_from]; [lia|].
  destruct (Z.testbit x (Z.of_nat n)); lia.
Qed.

Lemma clz_from_bit_set n x j :
  (j < n)%nat -> Z.testbit x (Z.of_nat j) = true ->
  clz_from n x <= Z.of_nat n - 1 - Z.of_nat j.
Proof.
  induction n as [|n IH]; intros Hj Hb; [lia|].
  cbn [clz_from].
  destruct (Z.testbit x (Z.of_nat n)) eqn:Hn; [lia|].
  assert (j <> n) by (intros ->; congruence).
  specialize (IH ltac:(lia) Hb). lia.
Qed.

(** The bit count agrees with the binary logarithm: a non-zero word below
    2^n has [n - 1 - log2 x] leading zeros among its low [n] bits. *)
Lemma clz_from_log2 n x :
  0 < x < 2 ^ Z.of_nat n -> clz_from n x = Z.of_nat n - 1 - Z.log2 x.
Proof.
  induction n as [|n IH]; intros Hx; [cbn in Hx; lia|].
  cbn [clz_from].
  assert (Hlog : Z.log2 x < Z.of_nat (S n)) by (apply Z.log2_lt_pow2; lia).
  destruct (Z.testbit x (Z.of_nat n)) eqn:Hb.
  - destruct (Z.lt_ge_cases (Z.log2 x) (Z.of_nat n)) as [Hlt|Hge]; [|lia].
    rewrite Z.bits_above_log2 in Hb by lia. discriminate.
  - assert (Z.log2 x <> Z.of_nat n).
    { intros Heq. rewrite <- Heq, Z.bit_log2 in Hb by lia. discriminate. }
    rewrite IH; [lia|]. split; [lia|]. apply Z.log2_lt_pow2; lia.
Qed.

Lemma Clz_log2 x : 0 < x < 2 ^ 64 -> Clz x = 63 - Z.log2 x.
Proof. intros Hx. unfold Clz. rewrite clz_from_log2; [lia|exact Hx]. Qed.

Example Clz_zero : Clz 0 = 64.
Proof. reflexivity. Qed.

Lemma maxX_value : maxX = 2 ^ 14 - 1.
Proof. reflexivity. Qed.

Lemma m_value : m = 16384.
Proof. reflexivity. Qed.

Lemma split_word_bit13 x :
  Z.testbit (Z.lxor (wrap 64 (Z.shiftl x precision)) maxX) 13 = true.
Proof.
  rewrite Z.lxor_spec. unfold wrap.
  rewrite Z.mod_pow2_bits_low by lia.
  rewrite Z.shiftl_spec_low by (unfold precision; lia).
  reflexivity.
Qed.

Lemma Clz_split_word x :
  0 <= Clz (Z.lxor (wrap 64 (Z.shiftl x precision)) maxX) <= 50.
Proof.
  split; [apply clz_from_nonneg|].
  unfold Clz.
  pose proof (clz_from_bit_set 64 _ 13 ltac:(lia) (split_word_bit13 x)).
  lia.
Qed.

Lemma index_in_range x : 0 <= x < 2 ^ 64 -> 0 <= Z.shiftr x max < m.
Proof.
  intros Hx. rewrite Z.shiftr_div_pow2 by (unfold max, precision; lia).
  rewrite m_value. change (2 ^ max) with (2 ^ 50).
  split; [apply Z.div_pos; lia|].
  apply Z.div_lt_upper_bound; lia.
Qed.

(** C5. For every 64-bit hash [x], [getPosVal] returns the index
    [x >> (64 - precision)], which lies in [0, m), and the rank
    [1 + Clz ((x << precision) xor maxX)], which lies in
    [1, 64 - precision + 1] = [1, 51]. *)
Theorem getPosVal_spec (x : Z) :
  0 <= x < 2 ^ 64 ->
  fst (getPosVal x) = Z.shiftr x (64 - precision) /\
  0 <= fst (getPosVal x) < m /\
  snd (getPosVal x) = 1 + Clz (Z.lxor (wrap 64 (Z.shiftl x precision)) maxX) /\
  1 <= snd (getPosVal x) <= 64 - precision + 1 /\
  64 - precision + 1 = 51.
Proof.
  intros Hx. cbn [getPosVal fst snd].
  pose proof (Clz_split_word x) as Hc.
  pose proof (index_in_range x Hx) as Hk.
  assert (Hv : wrap 8 (wrap 8 (Clz (Z.lxor (wrap 64 (Z.shiftl x precision)) maxX)) + 1)
               = 1 + Clz (Z.lxor (wrap 64 (Z.shiftl x precision)) maxX)).
  { unfold wrap at 1 2. rewrite (Z.mod_small (Clz _)) by lia.
    rewrite Z.mod_small by lia. lia. }
  rewrite Hv. fold max.
  split; [reflexivity|]. split; [exact Hk|]. split; [reflexivity|].
  set (c := Clz _) in *. unfold max, precision. lia.
Qed.

Lemma getPosVal_spec_witness :
  0 <= 0 < 2 ^ 64 /\
  (fst (getPosVal 0) = Z.shiftr 0 (64 - precision) /\
   0 <= fst (getPosVal 0) < m /\
   snd (getPosVal 0) = 1 + Clz (Z.lxor (wrap 64 (Z.shiftl 0 precision)) maxX) /\
   1 <= snd (getPosVal 0) <= 64 - precision + 1 /\
   64 - precision + 1 = 51).
Proof.
  split; [lia | apply (getPosVal_spec 0); lia].
Defined.

Example getPosVal_zero : getPosVal 0 = (0, 51).
Proof. reflexivity. Qed.

Example getPosVal_ones : getPosVal MaxUint64 = (16383, 1).
Proof. reflexivity. Qed.

Example getPosVal_mixed : getPosVal (Z.shiftl 5 50 + 2 ^ 40) = (5, 10).
Proof. reflexivity. Qed.

(** ** Running the store operations *)

Lemma bind_run {A B} (c : M A) (k : A -> M B) h a h' :
  c h = Some (a, h') -> bind c k h = k a h'.
Proof. intros Hc. unfold bind. now rewrite Hc. Qed.

Lemma load_run h l s : h !! l = Some s -> load l h = Some (s, h).
Proof. intros Hl. unfold load. now rewrite Hl. Qed.

Lemma in_bounds_true i (regs : list Z) :
  0 <= i < Z.of_nat (length regs) -> in_bounds i regs = true.
Proof. intros Hi. unfold in_bounds. apply andb_true_intro. split; lia. Qed.

Lemma get_register_run h l s i v :
  h !! l = Some s -> 0 <= i -> llb_registers s !! Z.to_nat i = Some v ->
  get_register l i h = Some (v, h).
Proof.
  intros Hl Hi Hv. unfold get_register.
  rewrite (bind_run _ _ _ _ _ (load_run _ _ _ Hl)), Hv.
  apply lookup_lt_Some in Hv.
  rewrite in_bounds_true by lia. reflexivity.
Qed.

Lemma set_register_run h l s i v :
  h !! l = Some s -> 0 <= i < Z.of_nat (length (llb_registers s)) ->
  set_register l i v h =
    Some (tt, <[l := {| llb_registers := <[Z.to_nat i := v]> (llb_registers s);
                        llb_alpha := llb_alpha s |}]> h).
Proof.
  intros Hl Hi. unfold set_register.
  rewrite (bind_run _ _ _ _ _ (load_run _ _ _ Hl)).
  rewrite in_bounds_true by lia. reflexivity.
Qed.

Lemma sketch_eta s :
  {| llb_registers := llb_registers s; llb_alpha := llb_alpha s |} = s.
Proof. now destruct s. Qed.

(** ** AddHash *)

(** What [AddHash] does to a well-formed sketch: the register the hash
    selects becomes the larger of its value and the rank. *)
Lemma AddHash_run h llb s x :
  h !! llb = Some s -> wf_sketch s -> 0 <= x < 2 ^ 64 ->
  exists r,
    llb_registers s !! Z.to_nat (fst (getPosVal x)) = Some r /\
    AddHash llb x h =
      Some (tt, <[llb := {| llb_registers :=
                              <[Z.to_nat (fst (getPosVal x)) :=
                                  Z.max r (snd (getPosVal x))]> (llb_registers s);
                            llb_alpha := llb_alpha s |}]> h).
Proof.
  intros Hl Hwf Hx.
  pose proof (index_in_range x Hx) as Hk.
  change (Z.shiftr x max) with (fst (getPosVal x)) in Hk.
  unfold AddHash. destruct (getPosVal x) as [k val]; cbn [fst snd] in *.
  unfold wf_sketch in Hwf.
  destruct (lookup_lt_is_Some_2 (llb_registers s) (Z.to_nat k) ltac:(lia)) as [r Hr].
  exists r. split; [exact Hr|].
  rewrite (bind_run _ _ _ _ _ (get_register_run h llb s k r Hl ltac:(lia) Hr)).
  destruct (Z.ltb_spec r val).
  - rewrite (set_register_run _ _ s) by (auto; lia).
    now rewrite Z.max_r by lia.
  - rewrite Z.max_l by lia. rewrite list_insert_id by exact Hr.
    rewrite sketch_eta, insert_id by exact Hl. reflexivity.
Qed.

(** ** Merge *)

Lemma merge_registers_self a : merge_registers a a = a.
Proof.
  unfold merge_registers. induction a as [|v a IH]; cbn; [reflexivity|].
  now rewrite Z.max_id, IH.
Qed.

Lemma merge_registers_comm a b : merge_registers a b = merge_registers b a.
Proof.
  unfold merge_registers. revert b.
  induction a as [|v a IH]; intros [|w b]; cbn; try reflexivity.
  now rewrite Z.max_comm, IH.
Qed.

Lemma merge_registers_length a b :
  length a = length b -> length (merge_registers a b) = length a.
Proof. intros Hab. unfold merge_registers. rewrite length_zip_with. lia. Qed.

(** The loop when the argument is another sketch than the receiver:
    [pre] is the part of the receiver's array already merged. *)
Lemma Merge_loop_run llb other (B : LogLogBeta) a vs :
  llb <> other ->
  forall pre h,
    h !! llb = Some {| llb_registers := pre ++ vs; llb_alpha := a |} ->
    h !! other = Some B ->
    (length pre + length vs <= length (llb_registers B))%nat ->
    Merge_loop llb other (Z.of_nat (length pre)) vs h =
      Some (tt, <[llb := {| llb_registers :=
                              pre ++ merge_registers vs
                                       (drop (length pre) (llb_registers B));
                            llb_alpha := a |}]> h).
Proof.
  intros Hne. induction vs as [|v vs IH]; intros pre h Hl Ho Hlen.
  - cbn. unfold ret. rewrite insert_id; [reflexivity|].
    rewrite Hl. unfold merge_registers. reflexivity.
  - cbn [Merge_loop length] in *.
    destruct (lookup_lt_is_Some_2 (llb_registers B) (length pre) ltac:(lia)) as [o Hob].
    assert (Hget : forall h', h' !! other = Some B ->
              get_register other (Z.of_nat (length pre)) h' = Some (o, h')).
    { intros h' Ho'. apply (get_register_run _ _ B); [exact Ho'|lia|].
      now rewrite Nat2Z.id. }
    rewrite (bind_run _ _ _ _ _ (Hget h Ho)).
    rewrite (drop_S _ _ _ Hob). cbn [merge_registers zip_with].
    fold (merge_registers vs (drop (S (length pre)) (llb_registers B))).
    replace (Z.of_nat (length pre) + 1) with (Z.of_nat (length (pre ++ [Z.max v o])))
      by (rewrite length_app; cbn; lia).
    replace (S (length pre)) with (length (pre ++ [Z.max v o]))
      by (rewrite length_app; cbn; lia).
    replace (pre ++ Z.max v o :: merge_registers vs
               (drop (length (pre ++ [Z.max v o])) (llb_registers B)))
      with ((pre ++ [Z.max v o]) ++ merge_registers vs
               (drop (length (pre ++ [Z.max v o])) (llb_registers B)))
      by now rewrite <- app_assoc.
    destruct (Z.ltb_spec v o).
    + erewrite bind_run; cycle 1.
      { rewrite (bind_run _ _ _ _ _ (Hget h Ho)).
        apply (set_register_run _ _ _ _ _ Hl).
        cbn. rewrite length_app. cbn. lia. }
      cbn [llb_registers llb_alpha]. rewrite Nat2Z.id.
      rewrite IH.
      * now rewrite insert_insert_eq.
      * rewrite lookup_insert_eq. f_equal. f_equal.
        rewrite insert_app_r_alt by lia. rewrite Nat.sub_diag. cbn.
        rewrite Z.max_r by lia. now rewrite <- app_assoc.
      * now rewrite lookup_insert_ne.
      * rewrite length_app. cbn. lia.
    + rewrite (bind_run (ret tt) _ h tt h eq_refl).
      rewrite IH; [reflexivity| |exact Ho|rewrite length_app; cbn; lia].
      rewrite Hl. rewrite Z.max_l by lia. now rewrite <- app_assoc.
Qed.

(** The loop when the argument is the receiver itself: every comparison
    reads back the value the copy holds, and nothing is written. *)
Lemma Merge_loop_self llb a vs :
  forall pre h,
    h !! llb = Some {| llb_registers := pre ++ vs; llb_alpha := a |} ->
    Merge_loop llb llb (Z.of_nat (length pre)) vs h = Some (tt, h).
Proof.
  induction vs as [|v vs IH]; intros pre h Hl; [reflexivity|].
  cbn [Merge_loop].
  rewrite (bind_run _ _ h v h).
  - rewrite Z.ltb_irrefl. rewrite (bind_run (ret tt) _ h tt h eq_refl).
    replace (Z.of_nat (length pre) + 1) with (Z.of_nat (length (pre ++ [v])))
      by (rewrite length_app; cbn; lia).
    apply IH. now rewrite <- app_assoc.
  - apply (get_register_run _ _ _ _ _ Hl); [lia|].
    cbn. rewrite Nat2Z.id. now rewrite list_lookup_middle.
Qed.

(** What [Merge] does to two well-formed sketches, aliased or not. *)
Lemma Merge_run h llb other A B :
  h !! llb = Some A -> h !! other = Some B ->
  wf_sketch A -> wf_sketch B ->
  Merge llb other h =
    Some (tt, <[llb := {| llb_registers :=
                            merge_registers (llb_registers A) (llb_registers B);
                          llb_alpha := llb_alpha A |}]> h).
Proof.
  intros Hl Ho HA HB. unfold Merge.
  rewrite (bind_run _ _ _ _ _ (load_run _ _ _ Hl)).
  destruct (decide (llb = other)) as [<-|Hne].
  - assert (B = A) as -> by congruence.
    rewrite merge_registers_self, sketch_eta, insert_id by exact Hl.
    apply (Merge_loop_self llb (llb_alpha A) (llb_registers A) [] h).
    cbn [app]. now rewrite sketch_eta.
  - apply (Merge_loop_run llb other B (llb_alpha A) (llb_registers A) Hne [] h).
    + cbn [app]. now rewrite sketch_eta.
    + exact Ho.
    + unfold wf_sketch in *. cbn. lia.
Qed.

(** ** The register array keeps its length *)

Lemma store_wf_insert (h : store) l s :
  store_wf h -> wf_sketch s -> store_wf (<[l := s]> h).
Proof.
  intros Hh Hs l' t. destruct (decide (l = l')) as [<-|Hne].
  - rewrite lookup_insert_eq. now intros [= <-].
  - rewrite lookup_insert_ne by exact Hne. apply Hh.
Qed.

Lemma AddHash_wf h llb s x :
  store_wf h -> h !! llb = Some s -> 0 <= x < 2 ^ 64 ->
  exists h', AddHash llb x h = Some (tt, h') /\ store_wf h'.
Proof.
  intros Hh Hl Hx.
  destruct (AddHash_run h llb s x Hl (Hh _ _ Hl) Hx) as (r & _ & Hrun).
  eexists. split; [exact Hrun|].
  apply store_wf_insert; [exact Hh|].
  unfold wf_sketch. cbn. rewrite length_insert. apply (Hh _ _ Hl).
Qed.

Lemma Merge_wf h llb other A B :
  store_wf h -> h !! llb = Some A -> h !! other = Some B ->
  exists h', Merge llb other h = Some (tt, h') /\ store_wf h'.
Proof.
  intros Hh Hl Ho.
  pose proof (Hh _ _ Hl) as HA. pose proof (Hh _ _ Ho) as HB.
  eexists. split; [apply (Merge_run h llb other A B); assumption|].
  apply store_wf_insert; [exact Hh|].
  unfold wf_sketch in *. cbn. rewrite merge_registers_length; lia.
Qed.

Lemma New_wf h :
  store_wf h -> exists l h', New h = Some (l, h') /\ store_wf h'.
Proof.
  intros Hh. eexists _, _. split; [reflexivity|].
  apply store_wf_insert; [exact Hh|].
  unfold wf_sketch. cbn. apply length_replicate.
Qed.

(** ** Monotonicity helpers *)

Lemma registers_le_refl s : registers_le s s.
Proof. unfold registers_le. apply Forall2_same_length_lookup. split; [reflexivity|].
  intros i x y Hx Hy. assert (x = y) by congruence. lia.
Qed.

Lemma store_le_insert (h : store) l s s' :
  h !! l = Some s -> registers_le s s' -> store_le h (<[l := s']> h).
Proof.
  intros Hl Hle l' t Ht. destruct (decide (l = l')) as [<-|Hne].
  - exists s'. rewrite lookup_insert_eq. split; [reflexivity|]. congruence.
  - exists t. rewrite lookup_insert_ne by exact Hne.
    split; [exact Ht|apply registers_le_refl].
Qed.

Lemma insert_max_le (regs : list Z) i r v :
  regs !! i = Some r -> Forall2 Z.le regs (<[i := Z.max r v]> regs).
Proof.
  intros Hr. rewrite <- (list_insert_id regs i r Hr) at 1.
  apply Forall2_insert; [|lia].
  apply Forall2_same_length_lookup. split; [reflexivity|].
  intros j x y Hx Hy. assert (x = y) by congruence. lia.
Qed.

Lemma merge_registers_le a : forall b,
  (length a <= length b)%nat -> Forall2 Z.le a (merge_registers a b).
Proof.
  unfold merge_registers.
  induction a as [|v a IH]; intros [|w b] Hlen; cbn in *; try lia.
  - constructor.
  - constructor.
  - constructor; [lia|]. apply IH. lia.
Qed.

Lemma merge_registers_ge a : forall b,
  (length b <= length a)%nat -> Forall2 Z.le b (merge_registers a b).
Proof.
  unfold merge_registers.
  induction a as [|v a IH]; intros [|w b] Hlen; cbn in *; try lia.
  - constructor.
  - constructor.
  - constructor; [lia|]. apply IH. lia.
Qed.

(** ** The concrete sketches are well formed *)

Lemma sketch_empty_wf : wf_sketch sketch_empty.
Proof. unfold wf_sketch. cbn. apply length_replicate. Defined.

Lemma sketch_one_wf : wf_sketch sketch_one.
Proof. unfold wf_sketch. cbn. rewrite length_insert. apply length_replicate. Defined.

Lemma store_two_1 : store_two !! 1%positive = Some sketch_empty.
Proof. unfold store_two. apply lookup_insert_eq. Defined.

Lemma store_two_2 : store_two !! 2%positive = Some sketch_one.
Proof. unfold store_two. rewrite lookup_insert_ne by discriminate. apply lookup_insert_eq. Defined.

(** ** Merge: commutativity, idempotence, frame *)

(** C3. Merge is commutative and idempotent on the registers: from one
    store, the receiver's registers after [a.Merge(b)] are the registers
    [b] has after [b.Merge(a)], and [a.Merge(a)] changes nothing. *)
Theorem Merge_commutative_idempotent (h : store) (a b : loc) (A B : LogLogBeta) :
  h !! a = Some A -> h !! b = Some B -> wf_sketch A -> wf_sketch B ->
  exists h1 h2 A' B',
    Merge a b h = Some (tt, h1) /\ h1 !! a = Some A' /\
    Merge b a h = Some (tt, h2) /\ h2 !! b = Some B' /\
    llb_registers A' = llb_registers B' /\
    Merge a a h = Some (tt, h).
Proof.
  intros Ha Hb HA HB.
  eexists _, _, _, _.
  split; [apply (Merge_run h a b A B); assumption|].
  split; [apply lookup_insert_eq|].
  split; [apply (Merge_run h b a B A); assumption|].
  split; [apply lookup_insert_eq|].
  split; [cbn; apply merge_registers_comm|].
  rewrite (Merge_run h a a A A) by assumption.
  now rewrite merge_registers_self, sketch_eta, insert_id.
Qed.

Lemma Merge_commutative_idempotent_witness :
  exists h1 h2 A' B',
    Merge 1 2 store_two = Some (tt, h1) /\ h1 !! 1%positive = Some A' /\
    Merge 2 1 store_two = Some (tt, h2) /\ h2 !! 2%positive = Some B' /\
    llb_registers A' = llb_registers B' /\
    Merge 1 1 store_two = Some (tt, store_two).
Proof.
  exact (Merge_commutative_idempotent store_two 1 2 sketch_empty sketch_one
           store_two_1 store_two_2 sketch_empty_wf sketch_one_wf).
Defined.

(** C10. Merge does not modify its argument: after [llb.Merge(other)]
    the sketch behind [other] has the registers and the alpha it had. *)
Theorem Merge_preserves_argument (h : store) (llb other : loc) (A B : LogLogBeta) :
  h !! llb = Some A -> h !! other = Some B -> wf_sketch A -> wf_sketch B ->
  exists h', Merge llb other h = Some (tt, h') /\ h' !! other = Some B.
Proof.
  intros Hl Ho HA HB. eexists. split; [apply (Merge_run h llb other A B); assumption|].
  destruct (decide (llb = other)) as [<-|Hne].
  - assert (B = A) as -> by congruence.
    now rewrite merge_registers_self, sketch_eta, lookup_insert_eq.
  - now rewrite lookup_insert_ne.
Qed.

Lemma Merge_preserves_argument_witness :
  exists h', Merge 1 2 store_two = Some (tt, h') /\ h' !! 2%positive = Some sketch_one.
Proof.
  exact (Merge_preserves_argument store_two 1 2 sketch_empty sketch_one
           store_two_1 store_two_2 sketch_empty_wf sketch_one_wf).
Defined.

(** ** Registers never decrease *)

Section Monotone.
Context `{MetroPkg}.

Lemma AddHash_monotone h llb s x :
  h !! llb = Some s -> wf_sketch s -> 0 <= x < 2 ^ 64 ->
  exists h', AddHash llb x h = Some (tt, h') /\ store_le h h'.
Proof.
  intros Hl Hwf Hx.
  destruct (AddHash_run h llb s x Hl Hwf Hx) as (r & Hr & Hrun).
  eexists. split; [exact Hrun|].
  apply (store_le_insert h llb s); [exact Hl|].
  unfold registers_le. cbn. now apply insert_max_le.
Qed.

Lemma wrap_range w x : 0 <= w -> 0 <= wrap w x < 2 ^ w.
Proof. intros Hw. unfold wrap. apply Z.mod_pos_bound. lia. Qed.

(** C4. Every register is non-decreasing under every mutating
    operation: a single [AddHash], [Add] or [Merge] on well-formed
    sketches succeeds and leaves every register of every sketch of the
    store at least as large as it was. *)
Theorem registers_monotone (h : store) (llb other : loc) (s o : LogLogBeta)
    (x : Z) (value : list Z) :
  h !! llb = Some s -> h !! other = Some o ->
  wf_sketch s -> wf_sketch o -> 0 <= x < 2 ^ 64 ->
  (exists h', AddHash llb x h = Some (tt, h') /\ store_le h h') /\
  (exists h', Add llb value h = Some (tt, h') /\ store_le h h') /\
  (exists h', Merge llb other h = Some (tt, h') /\ store_le h h').
Proof.
  intros Hl Ho Hs Hwo Hx.
  split; [now apply (AddHash_monotone h llb s)|].
  split; [apply (AddHash_monotone h llb s); auto; apply wrap_range; lia|].
  eexists. split; [apply (Merge_run h llb other s o); assumption|].
  apply (store_le_insert h llb s); [exact Hl|].
  unfold registers_le. cbn. apply merge_registers_le.
  unfold wf_sketch in *. lia.
Qed.
End Monotone.

Lemma registers_monotone_witness :
  (exists h', AddHash 1 (2 ^ 63) store_two = Some (tt, h') /\ store_le store_two h') /\
  (exists h', @Add Ref.metro 1 [97] store_two = Some (tt, h') /\ store_le store_two h') /\
  (exists h', Merge 1 2 store_two = Some (tt, h') /\ store_le store_two h').
Proof.
  apply (@registers_monotone Ref.metro store_two 1 2 sketch_empty sketch_one
           (2 ^ 63) [97] store_two_1 store_two_2 sketch_empty_wf sketch_one_wf).
  lia.
Defined.

(** ** Conversion to [uint64] *)

(** On a positive finite float [mant * 2^e] the truncation is the floor:
    the integer itself when [e >= 0], and otherwise the [t] with
    [t <= mant / 2^(-e) < t + 1]. *)
Lemma trunc_SF_floor mant e t :
  trunc_SF (S754_finite false mant e) = Some t ->
  (0 <= e -> t = Z.pos mant * 2 ^ e) /\
  (e < 0 -> t * 2 ^ (- e) <= Z.pos mant < (t + 1) * 2 ^ (- e)).
Proof.
  cbn. intros [= <-]. split; intros He.
  - now rewrite (proj2 (Z.leb_le 0 e) He).
  - rewrite (proj2 (Z.leb_gt 0 e) He).
    assert (Hp : 0 < 2 ^ (- e)) by (apply Z.pow_pos_nonneg; lia).
    split.
    + rewrite Z.mul_comm. apply Z.mul_div_le. exact Hp.
    + rewrite Z.mul_comm. apply Z.mul_succ_div_gt. exact Hp.
Qed.

(** ** The estimator *)

Lemma succ_exact_16384 : succ_exact_from (Z.to_nat 16384) 0 = true.
Proof. vm_compute. reflexivity. Qed.

Lemma succ_exact_from_spec k :
  forall n0 n, succ_exact_from k n0 = true -> n0 <= n < n0 + Z.of_nat k ->
  (float64_of_Z n + 1)%float = float64_of_Z (n + 1).
Proof.
  induction k as [|k IH]; intros n0 n Hall Hn; [lia|].
  cbn [succ_exact_from] in Hall. apply andb_prop in Hall as [Hhd Htl].
  destruct (Z.eq_dec n n0) as [->|Hne].
  - now apply FloatAxioms.Leibniz.eqb_spec.
  - apply (IH (n0 + 1)); [exact Htl|lia].
Qed.

Lemma succ_exact n :
  0 <= n < 16384 -> (float64_of_Z n + 1)%float = float64_of_Z (n + 1).
Proof.
  intros Hn.
  apply (succ_exact_from_spec (Z.to_nat 16384) 0 n succ_exact_16384).
  rewrite Z2Nat.id; lia.
Qed.

Lemma recip_exact_below_spec N n :
  recip_exact_below N = true -> (n < N)%nat ->
  (1 / Z.ldexp 1 (Z.of_nat n))%float = Z.ldexp 1 (- Z.of_nat n).
Proof.
  unfold recip_exact_below. rewrite forallb_forall. intros Hall Hn.
  apply FloatAxioms.Leibniz.eqb_spec, Hall, in_seq. lia.
Qed.

Lemma recip_exact_256 : recip_exact_below 256 = true.
Proof. vm_compute. reflexivity. Qed.

Lemma count_zeros_cons v regs :
  count_zeros (v :: regs) = (if v =? 0 then 1 else 0) + count_zeros regs.
Proof.
  unfold count_zeros. rewrite filter_cons.
  destruct (Z.eqb_spec v 0); destruct (decide (v = 0)); cbn [length]; lia.
Qed.

Lemma count_zeros_bounds regs : 0 <= count_zeros regs <= Z.of_nat (length regs).
Proof.
  unfold count_zeros. pose proof (length_filter (fun v : Z => v = 0) regs). lia.
Qed.

Lemma count_zeros_replicate n : count_zeros (replicate n 0) = Z.of_nat n.
Proof.
  induction n as [|n IH]; [reflexivity|].
  cbn [replicate]. rewrite count_zeros_cons, IH. cbn. lia.
Qed.

Section Estimator.
Context `{MathPkg} `{Platform}.

Lemma beta_is_beta_spec ez : beta ez = beta_spec ez.
Proof. reflexivity. Qed.

(** The loop of [regSumAndZeros] computes the two aggregates
    independently, and its float counter is the exact zero count. *)
Lemma regSumAndZeros_acc regs :
  forall sum n,
    0 <= n -> n + Z.of_nat (length regs) <= 16384 ->
    fold_left regSumAndZeros_step regs (sum, float64_of_Z n) =
      (fold_left (fun acc v => (acc + pow2_neg v)%float) regs sum,
       float64_of_Z (n + count_zeros regs)).
Proof.
  induction regs as [|v regs IH]; intros sum n Hn Hlen.
  - cbn. now rewrite Z.add_0_r.
  - cbn [fold_left length] in *. rewrite count_zeros_cons.
    unfold regSumAndZeros_step at 2.
    destruct (Z.eqb_spec v 0) as [->|Hv].
    + rewrite succ_exact by lia.
      rewrite IH by lia. now rewrite Z.add_assoc.
    + rewrite IH by lia. reflexivity.
Qed.

Lemma regSumAndZeros_spec regs :
  (length regs <= Z.to_nat m)%nat ->
  regSumAndZeros regs = (sum_spec regs, float64_of_Z (count_zeros regs)).
Proof.
  intros Hlen. unfold regSumAndZeros, sum_spec.
  change 0%float with (float64_of_Z 0) at 2.
  rewrite regSumAndZeros_acc; [reflexivity|lia|].
  change (Z.to_nat m) with (Z.to_nat 16384) in Hlen. lia.
Qed.

(** With a [math.Pow] that is exact on the powers of two, the term the
    loop adds for a register [v] is the float 2^(-v). *)
Lemma pow2_neg_exact v :
  0 <= v < 256 ->
  Pow 2 (float64_of_Z v) = Z.ldexp 1 v ->
  pow2_neg v = Z.ldexp 1 (- v).
Proof.
  intros Hv Hpow. unfold pow2_neg. rewrite Hpow.
  rewrite <- (Z2Nat.id v) by lia.
  apply (recip_exact_below_spec 256 (Z.to_nat v) recip_exact_256). lia.
Qed.

(** [Cardinality] on a well-formed sketch: the value the specification
    words, and a store left as it was. *)
Lemma Cardinality_run (h : store) (llb : loc) (s : LogLogBeta) :
  h !! llb = Some s -> wf_sketch s ->
  Cardinality llb h = Some (Cardinality_spec s, h).
Proof.
  intros Hl Hwf. unfold Cardinality.
  rewrite (bind_run _ _ _ _ _ (load_run _ _ _ Hl)).
  rewrite regSumAndZeros_spec by (unfold wf_sketch in Hwf; lia).
  reflexivity.
Qed.

(** The quotient is what [Cardinality_spec] converts. *)
Lemma Cardinality_spec_estimate (s : LogLogBeta) :
  Cardinality_spec s = uint64_of_float64 (estimate s).
Proof. reflexivity. Qed.

(** A floor that is not negative is the integer part that the conversion
    takes. *)
Lemma is_floor_trunc (f : float) (t : Z) :
  is_floor f t -> 0 <= t -> trunc_SF (Prim2SF f) = Some t.
Proof.
  unfold is_floor, trunc_SF.
  destruct (Prim2SF f) as [s|s| |s mant e]; try contradiction.
  - now intros ->.
  - intros Hfl Ht. f_equal. destruct (Z.leb_spec 0 e) as [He|He].
    + assert (Hp : 0 < 2 ^ e) by (apply Z.pow_pos_nonneg; lia).
      destruct s; [exfalso; nia|now subst t].
    + assert (Hp : 0 < 2 ^ (- e)) by (apply Z.pow_pos_nonneg; lia).
      destruct s; [exfalso; nia|].
      pose proof (Z.mul_div_le (Z.pos mant) _ Hp).
      pose proof (Z.mul_succ_div_gt (Z.pos mant) _ Hp).
      nia.
Qed.

(** Below zero the conversion rounds the other way: the integer part of
    [f] is minus the floor of [- f]. *)
Lemma is_floor_trunc_negative (f : float) (t u : Z) :
  is_floor f t -> t < 0 -> is_floor (- f) u ->
  trunc_SF (Prim2SF f) = Some (- u) /\ 0 <= u.
Proof.
  unfold is_floor. rewrite opp_spec. unfold trunc_SF.
  destruct (Prim2SF f) as [s|s| |s mant e]; try contradiction.
  - intros ->. lia.
  - cbn [SFopp]. intros Hfl Ht Hop.
    destruct (Z.leb_spec 0 e) as [He|He].
    + assert (Hp : 0 < 2 ^ e) by (apply Z.pow_pos_nonneg; lia).
      destruct s; [|exfalso; nia]. cbn [negb] in Hop. subst u.
      split; [reflexivity|nia].
    + assert (Hp : 0 < 2 ^ (- e)) by (apply Z.pow_pos_nonneg; lia).
      destruct s; [|exfalso; nia]. cbn [negb] in Hop.
      pose proof (Z.mul_div_le (Z.pos mant) _ Hp).
      pose proof (Z.mul_succ_div_gt (Z.pos mant) _ Hp).
      assert (Z.pos mant / 2 ^ (- e) = u) as -> by nia.
      split; [reflexivity|nia].
Qed.

Lemma uint64_of_float64_in_range (f : float) (t : Z) :
  trunc_SF (Prim2SF f) = Some t -> 0 <= t <= MaxUint64 ->
  uint64_of_float64 f = t.
Proof.
  intros Ht Hr. unfold uint64_of_float64. rewrite Ht.
  unfold MaxUint64 in Hr.
  destruct (Z.leb_spec 0 t); [|lia]. destruct (Z.ltb_spec t (2 ^ 64)); [|lia].
  reflexivity.
Qed.

Lemma uint64_of_float64_out_of_range (f : float) (t : Z) :
  trunc_SF (Prim2SF f) = Some t -> t < 0 \/ MaxUint64 < t ->
  uint64_of_float64 f = wrap 64 (uint64_unrepresentable f).
Proof.
  intros Ht Hr. unfold uint64_of_float64. rewrite Ht.
  unfold MaxUint64 in Hr.
  destruct (Z.leb_spec 0 t); destruct (Z.ltb_spec t (2 ^ 64));
    try reflexivity; lia.
Qed.

(** C1, as amended. [Cardinality] computes the float
    [q = alpha * m * (m - ez) / (beta(ez) + sum)], with [m] = 16384, [ez]
    the number of registers equal to zero, [sum] the sum over the
    registers of 2^(-registers[i]) and [beta] the polynomial with the
    eight coefficients, and leaves the store as it was. It returns
    [floor q] when that lies in [0, MaxUint64]; 0 when [-1 < q < 0]; and
    otherwise (a floor above [MaxUint64], a [q <= -1], a NaN or an
    infinity) what the platform makes of a conversion that is out of
    range. *)
Theorem Cardinality_formula (h : store) (llb : loc) (s : LogLogBeta) :
  h !! llb = Some s -> wf_sketch s ->
  (forall t, is_floor (estimate s) t -> 0 <= t <= MaxUint64 ->
     Cardinality llb h = Some (t, h)) /\
  (forall t, is_floor (estimate s) t -> MaxUint64 < t ->
     Cardinality llb h
       = Some (wrap 64 (uint64_unrepresentable (estimate s)), h)) /\
  (forall t u, is_floor (estimate s) t -> t < 0 ->
     is_floor (- estimate s) u ->
     Cardinality llb h
       = Some (if u =? 0 then 0
               else wrap 64 (uint64_unrepresentable (estimate s)), h)) /\
  (finite_float (estimate s) = false ->
     Cardinality llb h
       = Some (wrap 64 (uint64_unrepresentable (estimate s)), h)).
Proof.
  intros Hl Hwf.
  assert (Hrun : Cardinality llb h
                 = Some (uint64_of_float64 (estimate s), h)).
  { unfold Cardinality.
    rewrite (bind_run _ _ _ _ _ (load_run _ _ _ Hl)).
    destruct (regSumAndZeros (llb_registers s)) as [sum ez] eqn:Hloop.
    rewrite regSumAndZeros_spec in Hloop by (unfold wf_sketch in Hwf; lia).
    injection Hloop as <- <-. reflexivity. }
  rewrite Hrun. repeat split.
  - intros t Hfl Hr.
    now rewrite (uint64_of_float64_in_range _ t (is_floor_trunc _ _ Hfl (proj1 Hr)) Hr).
  - intros t Hfl Hr.
    assert (Ht : 0 <= t) by (unfold MaxUint64 in Hr; lia).
    rewrite (uint64_of_float64_out_of_range _ t (is_floor_trunc _ _ Hfl Ht));
      [reflexivity|now right].
  - intros t u Hfl Ht Hop.
    destruct (is_floor_trunc_negative _ _ _ Hfl Ht Hop) as [Htr Hu].
    destruct (Z.eqb_spec u 0) as [->|Hne].
    + rewrite (uint64_of_float64_in_range _ 0 Htr); [reflexivity|].
      unfold MaxUint64. lia.
    + rewrite (uint64_of_float64_out_of_range _ _ Htr); [reflexivity|].
      left. lia.
  - intros Hfin. f_equal. f_equal.
    unfold uint64_of_float64, finite_float in *.
    destruct (Prim2SF (estimate s)); cbn in Hfin; try discriminate; reflexivity.
Qed.
End Estimator.

Lemma Cardinality_formula_witness :
  is_floor (@estimate Ref.math sketch_one) 0 /\ 0 <= 0 <= MaxUint64 /\
  @Cardinality Ref.math Ref.platform 2 store_two = Some (0, store_two).
Proof.
  assert (Hfl : is_floor (@estimate Ref.math sketch_one) 0)
    by (vm_compute; split; [discriminate|reflexivity]).
  assert (Hr : 0 <= 0 <= MaxUint64) by (unfold MaxUint64; lia).
  split; [exact Hfl|split; [exact Hr|]].
  exact (proj1 (@Cardinality_formula Ref.math Ref.platform store_two 2
                  sketch_one store_two_2 sketch_one_wf) 0 Hfl Hr).
Defined.

(** The claim as first stated fails on the saturated sketch: the floor of
    the quotient is 26609520579303645184, above [MaxUint64], and
    [Cardinality] returns 2^63 on a platform that gives the top bit alone
    for such conversions. *)
Lemma Cardinality_not_floor :
  is_floor (@estimate math_exact_at_one sketch_saturated)
           26609520579303645184 /\
  @Cardinality math_exact_at_one Ref.platform 1 store_saturated
    = Some (9223372036854775808, store_saturated) /\
  (9223372036854775808 =? 26609520579303645184) = false /\
  (MaxUint64 <? 26609520579303645184) = true.
Proof.
  split; [vm_compute; reflexivity|].
  split; [|split; reflexivity].
  assert (E : @Cardinality_spec math_exact_at_one Ref.platform sketch_saturated
              = 9223372036854775808) by (vm_compute; reflexivity).
  rewrite (@Cardinality_run math_exact_at_one Ref.platform store_saturated 1
             sketch_saturated);
    [|reflexivity|unfold wf_sketch; apply length_replicate].
  rewrite E. reflexivity.
Qed.

(** ** The empty sketch *)

Section EmptySketch.
Context `{MathPkg} `{Platform}.

Lemma sum_spec_replicate_zero :
  Pow 2 0 = 1%float ->
  forall k n, 0 <= n -> n + Z.of_nat k <= 16384 ->
    fold_left (fun acc v => (acc + pow2_neg v)%float) (replicate k 0)
              (float64_of_Z n) = float64_of_Z (n + Z.of_nat k).
Proof.
  intros Hpow. induction k as [|k IH]; intros n Hn Hk.
  - cbn. now rewrite Z.add_0_r.
  - cbn [replicate fold_left]. unfold pow2_neg at 2.
    change (float64_of_Z 0) with 0%float. rewrite Hpow.
    change (1 / 1)%float with 1%float.
    rewrite succ_exact by lia. rewrite IH by lia. f_equal. lia.
Qed.

(** A finite float times zero, divided by a finite non-zero float, is a
    zero, which converts to the integer 0. *)
Lemma uint64_of_zero_quotient x d :
  finite_float x = true -> finite_nonzero_float d = true ->
  uint64_of_float64 (x * 0 / d)%float = 0.
Proof.
  unfold finite_float, finite_nonzero_float, uint64_of_float64.
  rewrite div_spec, mul_spec. change (Prim2SF 0) with (S754_zero false).
  destruct (Prim2SF x), (Prim2SF d); try discriminate; intros _ _; reflexivity.
Qed.

(** C6. On the empty sketch (all [m] registers zero, so that [ez] is
    [m]) [Cardinality] returns exactly 0, for a sketch whose
    [alpha * m] is finite (the one [New] computes is) and a math
    package for which [Pow(2, 0)] is 1 and the denominator
    [beta(m) + m] is a finite non-zero float. *)
Theorem Cardinality_empty (h : store) (llb : loc) (s : LogLogBeta) :
  h !! llb = Some s ->
  llb_registers s = replicate (Z.to_nat m) 0 ->
  finite_float (llb_alpha s * 16384) = true ->
  Pow 2 0 = 1%float ->
  finite_nonzero_float (beta 16384 + 16384) = true ->
  Cardinality llb h = Some (0, h).
Proof.
  intros Hl Hregs Ha Hpow Hden.
  rewrite (Cardinality_run h llb s Hl)
    by (unfold wf_sketch; rewrite Hregs; apply length_replicate).
  unfold Cardinality_spec, sum_spec. rewrite Hregs.
  rewrite count_zeros_replicate.
  change 0%float with (float64_of_Z 0) at 1.
  rewrite (sum_spec_replicate_zero Hpow) by (pose proof m_value; lia).
  change (float64_of_Z (0 + Z.of_nat (Z.to_nat m))) with 16384%float.
  change (float64_of_Z (Z.of_nat (Z.to_nat m))) with 16384%float.
  change (16384 - 16384)%float with 0%float.
  rewrite <- beta_is_beta_spec.
  now rewrite uint64_of_zero_quotient.
Qed.
End EmptySketch.

Lemma Cardinality_empty_witness :
  @Cardinality Ref.math Ref.platform 1 store_two = Some (0, store_two).
Proof.
  apply (@Cardinality_empty Ref.math Ref.platform store_two 1 sketch_empty
           store_two_1); reflexivity.
Defined.

Example Cardinality_sketch_one :
  @Cardinality_spec Ref.math Ref.platform sketch_one = 0.
Proof. vm_compute. reflexivity. Qed.

(** ** Totality *)

Section Total.
Context `{MathPkg} `{Platform} `{MetroPkg}.

(** C8. [AddHash], [Add], [Cardinality] and [Merge] never fail on
    well-formed sketches: for every 64-bit hash [x] the index
    [x >> 50] that [AddHash] computes is below [m] = 16384, so the
    register access is in bounds, and each of the four operations
    returns. *)
Theorem operations_total (h : store) (llb other : loc) (s o : LogLogBeta)
    (x : Z) (value : list Z) :
  h !! llb = Some s -> h !! other = Some o ->
  wf_sketch s -> wf_sketch o -> 0 <= x < 2 ^ 64 ->
  fst (getPosVal x) = Z.shiftr x 50 /\
  0 <= Z.shiftr x 50 < 16384 /\
  is_Some (llb_registers s !! Z.to_nat (Z.shiftr x 50)) /\
  (exists h', AddHash llb x h = Some (tt, h')) /\
  (exists h', Add llb value h = Some (tt, h')) /\
  (exists n, Cardinality llb h = Some (n, h)) /\
  (exists h', Merge llb other h = Some (tt, h')).
Proof.
  intros Hl Ho Hs Hwo Hx.
  split; [reflexivity|].
  split; [apply (index_in_range x Hx)|].
  split.
  { apply lookup_lt_is_Some_2. unfold wf_sketch in Hs. rewrite Hs.
    pose proof (index_in_range x Hx) as Hk. change max with 50 in Hk.
    apply Z2Nat.inj_lt; lia. }
  split.
  { destruct (AddHash_run h llb s x Hl Hs Hx) as (r & _ & Hrun).
    eexists. exact Hrun. }
  split.
  { destruct (AddHash_run h llb s (wrap 64 (Hash64 value 1337)) Hl Hs)
      as (r & _ & Hrun); [apply wrap_range; lia|].
    eexists. exact Hrun. }
  split.
  { eexists. apply (Cardinality_run h llb s Hl Hs). }
  eexists. apply (Merge_run h llb other s o); assumption.
Qed.
End Total.

Lemma operations_total_witness :
  fst (getPosVal (2 ^ 64 - 1)) = Z.shiftr (2 ^ 64 - 1) 50 /\
  0 <= Z.shiftr (2 ^ 64 - 1) 50 < 16384 /\
  is_Some (llb_registers sketch_empty !! Z.to_nat (Z.shiftr (2 ^ 64 - 1) 50)) /\
  (exists h', AddHash 1 (2 ^ 64 - 1) store_two = Some (tt, h')) /\
  (exists h', @Add Ref.metro 1 [97; 98] store_two = Some (tt, h')) /\
  (exists n, @Cardinality Ref.math Ref.platform 1 store_two = Some (n, store_two)) /\
  (exists h', Merge 1 2 store_two = Some (tt, h')).
Proof.
  apply (@operations_total Ref.math Ref.platform Ref.metro store_two 1 2
           sketch_empty sketch_one (2 ^ 64 - 1) [97; 98]
           store_two_1 store_two_2 sketch_empty_wf sketch_one_wf).
  lia.
Defined.

(** A pointer that is not live cannot be merged from: the operations are
    total on live sketches only. *)
Example Merge_nil_panics : Merge 1 3 store_two = None.
Proof. reflexivity. Qed.


(** ** Codec *)

Lemma alpha_preserved_refl h : alpha_preserved h h.
Proof. intros l s Hl. exists s. split; [exact Hl|reflexivity]. Qed.

Lemma alpha_preserved_insert (h : store) l s s' :
  h !! l = Some s -> llb_alpha s' = llb_alpha s ->
  alpha_preserved h (<[l := s']> h).
Proof.
  intros Hl Ha l' t Ht. destruct (decide (l = l')) as [<-|Hne].
  - exists s'. rewrite lookup_insert_eq. split; [reflexivity|]. congruence.
  - exists t. rewrite lookup_insert_ne by exact Hne. split; [exact Ht|reflexivity].
Qed.

Lemma alpha_preserved_fresh (h : store) l s' :
  h !! l = None -> alpha_preserved h (<[l := s']> h).
Proof.
  intros Hl l' t Ht. exists t. split; [|reflexivity].
  rewrite lookup_insert_ne; [exact Ht|]. intros ->. congruence.
Qed.

Lemma New_fresh (h : store) : h !! fresh (dom h) = None.
Proof. apply not_elem_of_dom, is_fresh. Qed.

(** ** The stand-in [Wire] keeps gob's contract *)

Lemma be_bytes_length (n : nat) (z : Z) : length (Ref.be_bytes n z) = n.
Proof. induction n as [|n IH]; [reflexivity|]. cbn. now rewrite IH. Qed.

Lemma be_value_acc (n : nat) (z : Z) :
  forall acc,
    fold_left (fun a b => a * 256 + b) (Ref.be_bytes n z) acc
    = acc * 2 ^ (8 * Z.of_nat n) + z mod 2 ^ (8 * Z.of_nat n).
Proof.
  induction n as [|n IH]; intros acc.
  - cbn. rewrite Z.mod_1_r. lia.
  - cbn [Ref.be_bytes fold_left]. rewrite IH. unfold wrap.
    rewrite Z.shiftr_div_pow2 by lia.
    replace (8 * Z.of_nat (S n)) with (8 * Z.of_nat n + 8) by lia.
    rewrite Z.pow_add_r by lia.
    assert (Hp : 0 < 2 ^ (8 * Z.of_nat n)) by (apply Z.pow_pos_nonneg; lia).
    rewrite (Z.rem_mul_r z (2 ^ (8 * Z.of_nat n)) (2 ^ 8)) by lia.
    change (2 ^ 8) with 256. ring.
Qed.

Lemma be_value_be_bytes (z : Z) :
  0 <= z < 2 ^ 64 -> Ref.be_value (Ref.be_bytes 8 z) = z.
Proof.
  intros Hz. unfold Ref.be_value. rewrite be_value_acc.
  change (8 * Z.of_nat 8) with 64. rewrite Z.mod_small by exact Hz. lia.
Qed.

Lemma digits2_pos_bounds (p : positive) :
  2 ^ (Z.pos (digits2_pos p) - 1) <= Z.pos p < 2 ^ Z.pos (digits2_pos p).
Proof.
  induction p as [p IH|p IH|]; cbn [digits2_pos].
  - rewrite Pos2Z.inj_succ.
    replace (Z.succ (Z.pos (digits2_pos p)) - 1)
      with (Z.succ (Z.pos (digits2_pos p) - 1)) by lia.
    rewrite !Z.pow_succ_r by lia. lia.
  - rewrite Pos2Z.inj_succ.
    replace (Z.succ (Z.pos (digits2_pos p)) - 1)
      with (Z.succ (Z.pos (digits2_pos p) - 1)) by lia.
    rewrite !Z.pow_succ_r by lia. lia.
  - cbn. lia.
Qed.

(** The finite binary64 values: subnormal with exponent -1074, or a
    53-bit mantissa with an exponent from -1074 to 971. *)
Lemma valid_finite_bounds (s : bool) (mant : positive) (e : Z) :
  valid_binary (S754_finite s mant e) = true ->
  (Z.pos mant < 2 ^ 52 /\ e = -1074) \/
  (2 ^ 52 <= Z.pos mant < 2 ^ 53 /\ -1074 <= e <= 971).
Proof.
  unfold valid_binary, SpecFloat.valid_binary, bounded, canonical_mantissa,
    fexp, emin, prec, emax.
  intros Hv. apply andb_prop in Hv as [Hc He].
  apply Z.eqb_eq in Hc. apply Z.leb_le in He.
  pose proof (digits2_pos_bounds mant) as [Hlo Hhi].
  set (d := Z.pos (digits2_pos mant)) in *.
  assert (Hd : 0 < d) by (subst d; lia).
  destruct (Z.lt_ge_cases (Z.pos mant) (2 ^ 52)) as [Hsub|Hnorm].
  - left. split; [exact Hsub|].
    assert (d <= 52).
    { destruct (Z.le_gt_cases d 52) as [|Hgt]; [assumption|].
      pose proof (Z.pow_le_mono_r 2 52 (d - 1) ltac:(lia) ltac:(lia)). lia. }
    lia.
  - right.
    assert (53 <= d).
    { destruct (Z.le_gt_cases 53 d) as [|Hlt]; [assumption|].
      pose proof (Z.pow_le_mono_r 2 d 52 ltac:(lia) ltac:(lia)). lia. }
    assert (d = 53) by lia.
    replace d with 53 in Hhi by lia. lia.
Qed.

(** The three fields of a 64-bit pattern. *)
Lemma bits_fields (s : bool) (ex fr b : Z) :
  0 <= ex < 2048 -> 0 <= fr < 2 ^ 52 ->
  b = (if s then 2 ^ 63 else 0) + (ex * 2 ^ 52 + fr) ->
  Z.testbit b 63 = s /\ Z.land (Z.shiftr b 52) 2047 = ex /\
  Z.land b (2 ^ 52 - 1) = fr /\ 0 <= b < 2 ^ 64.
Proof.
  intros Hex Hfr Hb.
  set (sb := if s then 1 else 0).
  assert (Hsb : 0 <= sb <= 1) by (subst sb; destruct s; lia).
  assert (Hb' : b = 2 ^ 52 * (2048 * sb + ex) + fr)
    by (subst b sb; destruct s; lia).
  assert (Hdiv : b / 2 ^ 52 = 2048 * sb + ex)
    by (symmetry; apply (Z.div_unique b (2 ^ 52) _ fr); [left; lia|exact Hb']).
  assert (Hmod : b mod 2 ^ 52 = fr)
    by (symmetry; apply (Z.mod_unique b (2 ^ 52) (2048 * sb + ex) fr);
        [left; lia|exact Hb']).
  repeat split.
  - replace 63 with (11 + 52) by lia.
    rewrite <- Z.div_pow2_bits by lia. rewrite Hdiv.
    replace 11 with (0 + 11) by lia.
    rewrite <- Z.div_pow2_bits by lia.
    replace ((2048 * sb + ex) / 2 ^ 11) with sb
      by (apply (Z.div_unique _ (2 ^ 11) sb ex); [left; lia|lia]).
    rewrite Z.bit0_odd. subst sb. now destruct s.
  - rewrite Z.shiftr_div_pow2 by lia. rewrite Hdiv.
    change 2047 with (Z.ones 11). rewrite Z.land_ones by lia.
    symmetry. apply (Z.mod_unique _ (2 ^ 11) sb ex); [left; lia|lia].
  - change (2 ^ 52 - 1) with (Z.ones 52). rewrite Z.land_ones by lia.
    exact Hmod.
  - lia.
  - lia.
Qed.

Lemma float64_bits_roundtrip (f : float) :
  Ref.float64_frombits (Ref.float64_bits f) = f /\
  0 <= Ref.float64_bits f < 2 ^ 64.
Proof.
  pose proof (Prim2SF_valid f) as Hv.
  rewrite <- (SF2Prim_Prim2SF f) at 2.
  unfold Ref.float64_bits.
  destruct (Prim2SF f) as [s|s| |s mant e].
  - destruct s;
      (split; [reflexivity|split; [apply Z.leb_le|apply Z.ltb_lt]; reflexivity]).
  - destruct s;
      (split; [reflexivity|split; [apply Z.leb_le|apply Z.ltb_lt]; reflexivity]).
  - split; [reflexivity|split; [apply Z.leb_le|apply Z.ltb_lt]; reflexivity].
  - apply valid_finite_bounds in Hv as [[Hsub He]|[[Hlo Hhi] He]].
    + subst e. rewrite (proj2 (Z.ltb_lt _ _) Hsub).
      destruct (bits_fields s 0 (Z.pos mant)
                  ((if s then 2 ^ 63 else 0) + Z.pos mant))
        as (Ht & Hx & Hf & Hr); [lia|lia|lia|].
      split; [|exact Hr].
      unfold Ref.float64_frombits. rewrite Ht, Hx, Hf.
      change (0 =? 2047) with false. change (0 =? 0) with true.
      cbn match. destruct (Z.eqb_spec (Z.pos mant) 0); [lia|].
      reflexivity.
    + rewrite (proj2 (Z.ltb_ge _ _) Hlo). rewrite Z.shiftl_mul_pow2 by lia.
      destruct (bits_fields s (e + 1075) (Z.pos mant - 2 ^ 52)
                  ((if s then 2 ^ 63 else 0)
                   + ((e + 1075) * 2 ^ 52 + (Z.pos mant - 2 ^ 52))))
        as (Ht & Hx & Hf & Hr); [lia|lia|reflexivity|].
      split; [|exact Hr].
      unfold Ref.float64_frombits. rewrite Ht, Hx, Hf.
      destruct (Z.eqb_spec (e + 1075) 2047); [lia|].
      destruct (Z.eqb_spec (e + 1075) 0); [lia|].
      replace (Z.pos mant - 2 ^ 52 + 2 ^ 52) with (Z.pos mant) by lia.
      replace (e + 1075 - 1075) with e by lia.
      reflexivity.
Qed.

Lemma int64_of_bits_wrap (v : Z) :
  - 2 ^ 63 <= v < 2 ^ 63 ->
  Wire.int64_of_bits (wrap 64 v) = v /\ 0 <= wrap 64 v < 2 ^ 64.
Proof.
  intros Hv. unfold Wire.int64_of_bits, wrap.
  destruct (Z.lt_ge_cases v 0) as [Hneg|Hpos].
  - assert (Hm : v mod 2 ^ 64 = v + 2 ^ 64)
      by (symmetry; apply (Z.mod_unique v (2 ^ 64) (-1)); [left; lia|lia]).
    rewrite Hm. destruct (Z.ltb_spec (v + 2 ^ 64) (2 ^ 63)); lia.
  - rewrite Z.mod_small by lia.
    destruct (Z.ltb_spec v (2 ^ 63)); lia.
Qed.

Lemma map_wrap8_bytes (regs : list Z) :
  Forall is_uint8 regs -> map (wrap 8) regs = regs.
Proof.
  induction 1 as [|v regs Hv _ IH]; [reflexivity|].
  cbn [map]. rewrite IH. f_equal. unfold wrap, is_uint8 in *.
  apply Z.mod_small. change (2 ^ 8) with 256. lia.
Qed.

(** One round of the decoder on each field as the encoder lays it out. *)
Lemma decode_fields_registers (fuel : nat) (regs rest : list Z)
    (dst : savedLLB) :
  length regs = Z.to_nat m ->
  Wire.decode_fields (S fuel) (-1) (1 :: regs ++ rest) dst
  = Wire.decode_fields fuel 0 rest
      {| Registers := regs; Alpha := Alpha dst; Version := Version dst |}.
Proof.
  intros Hlen. cbn -[Z.to_nat Nat.ltb take drop length].
  destruct (Nat.ltb_spec (length (regs ++ rest)) (Z.to_nat m)) as [Hlt|_].
  - rewrite length_app in Hlt. lia.
  - now rewrite take_app_length', drop_app_length'.
Qed.

Lemma decode_fields_alpha (fuel : nat) (bs rest : list Z) (dst : savedLLB) :
  length bs = 8%nat ->
  Wire.decode_fields (S fuel) 0 (1 :: bs ++ rest) dst
  = Wire.decode_fields fuel 1 rest
      {| Registers := Registers dst;
         Alpha := Ref.float64_frombits (Ref.be_value bs);
         Version := Version dst |}.
Proof.
  intros Hlen. cbn -[Nat.ltb take drop length Ref.float64_frombits Ref.be_value].
  change (0 + 1) with 1. cbn -[Nat.ltb take drop length Ref.float64_frombits Ref.be_value].
  destruct (Nat.ltb_spec (length (bs ++ rest)) 8) as [Hlt|_].
  - rewrite length_app in Hlt. lia.
  - now rewrite take_app_length', drop_app_length'.
Qed.

Lemma decode_fields_version (fuel : nat) (prev delta : Z)
    (bs rest : list Z) (dst : savedLLB) :
  (prev = 1 /\ delta = 1) \/ (prev = 0 /\ delta = 2) ->
  length bs = 8%nat ->
  Wire.decode_fields (S fuel) prev (delta :: bs ++ rest) dst
  = Wire.decode_fields fuel 2 rest
      {| Registers := Registers dst; Alpha := Alpha dst;
         Version := Wire.int64_of_bits (Ref.be_value bs) |}.
Proof.
  intros [[-> ->]|[-> ->]] Hlen;
    cbn -[Nat.ltb take drop length Wire.int64_of_bits Ref.be_value];
    [change (1 + 1) with 2|change (0 + 2) with 2];
    cbn -[Nat.ltb take drop length Wire.int64_of_bits Ref.be_value];
    (destruct (Nat.ltb_spec (length (bs ++ rest)) 8) as [Hlt|_];
     [rewrite length_app in Hlt; lia
     |now rewrite take_app_length', drop_app_length']).
Qed.

(** The stand-in does what the contract says, for every value of the
    Go type. *)
Lemma Wire_contract : @gob_contract Wire.gob.
Proof.
  intros v (Hlen & Hbytes & Hver). split; [reflexivity|].
  cbn [gob_encode gob_decode Wire.gob]. unfold Wire.encode, Wire.decode.
  cbn [fst]. rewrite (map_wrap8_bytes _ Hbytes).
  rewrite (decode_fields_registers 3 _ _ _ Hlen).
  destruct (float64_bits_roundtrip (Alpha v)) as [Hrt Hrange].
  destruct (int64_of_bits_wrap _ Hver) as [Hint Hwrap].
  unfold gob_received.
  destruct (Alpha v =? 0)%float eqn:Hzero; cbn [negb];
    destruct (Z.eqb_spec (Version v) 0) as [Hv0|Hv0].
  - cbn. rewrite Hv0. reflexivity.
  - cbn [app].
    rewrite (decode_fields_version 2 0 2 _ [0] _ (or_intror (conj eq_refl eq_refl))
               (be_bytes_length 8 _)).
    rewrite be_value_be_bytes by exact Hwrap. rewrite Hint. reflexivity.
  - rewrite <- app_comm_cons.
    rewrite (decode_fields_alpha 2 _ _ _ (be_bytes_length 8 _)).
    rewrite be_value_be_bytes by exact Hrange. rewrite Hrt.
    cbn. rewrite Hv0. reflexivity.
  - rewrite <- app_comm_cons.
    rewrite (decode_fields_alpha 2 _ _ _ (be_bytes_length 8 _)).
    rewrite be_value_be_bytes by exact Hrange. rewrite Hrt.
    rewrite <- app_comm_cons.
    rewrite (decode_fields_version 1 1 1 _ [0] _ (or_introl (conj eq_refl eq_refl))
               (be_bytes_length 8 _)).
    rewrite be_value_be_bytes by exact Hwrap. rewrite Hint. reflexivity.
Qed.

(** The floats that compare equal to zero are the two zeros. *)
Lemma float_zero_cases (b : float) :
  (b =? 0)%float = true -> b = 0%float \/ b = (-0)%float.
Proof.
  rewrite FloatAxioms.eqb_spec. intros Hb.
  rewrite <- (SF2Prim_Prim2SF b).
  destruct (Prim2SF b) as [[|]|[|]| |[|] mant e];
    cbn in Hb; try discriminate.
  - right. reflexivity.
  - left. reflexivity.
Qed.

Lemma sketch_one_go : go_sketch sketch_one.
Proof.
  split; [exact sketch_one_wf|].
  apply Forall_insert; [|unfold is_uint8; lia].
  apply Forall_replicate. unfold is_uint8. lia.
Qed.

Section Codec.
Context `{GobPkg}.

Lemma MarshalBinary_run h llb s :
  h !! llb = Some s -> MarshalBinary llb h = Some (gob_encode (saved s), h).
Proof.
  intros Hl. unfold MarshalBinary.
  rewrite (bind_run _ _ _ _ _ (load_run _ _ _ Hl)). reflexivity.
Qed.

(** A decoding that reports an error leaves the store as it was. *)
Lemma UnmarshalBinary_error h llb data sllb e :
  gob_decode data savedLLB_zero = (sllb, Some e) ->
  UnmarshalBinary llb data h = Some (Some e, h).
Proof. intros Hdec. unfold UnmarshalBinary. rewrite Hdec. reflexivity. Qed.

(** A decoding that succeeds overwrites both fields of the receiver. *)
Lemma UnmarshalBinary_success h llb s data sllb :
  h !! llb = Some s ->
  gob_decode data savedLLB_zero = (sllb, None) ->
  UnmarshalBinary llb data h =
    Some (None, <[llb := {| llb_registers := Registers sllb;
                            llb_alpha := Alpha sllb |}]> h).
Proof.
  intros Hl Hdec. unfold UnmarshalBinary. rewrite Hdec.
  unfold set_registers, set_alpha.
  rewrite (bind_run _ _ h tt
             (<[llb := {| llb_registers := Registers sllb;
                          llb_alpha := llb_alpha s |}]> h)).
  - erewrite bind_run; cycle 1.
    { erewrite bind_run; [reflexivity|].
      apply load_run. apply lookup_insert_eq. }
    cbn [llb_registers llb_alpha]. unfold ret.
    now rewrite insert_insert_eq.
  - rewrite (bind_run _ _ _ _ _ (load_run _ _ _ Hl)). reflexivity.
Qed.

(** C2, as amended. Round trip, for a gob that keeps its contract:
    [MarshalBinary] of a sketch [s] returns its bytes without error, and
    [UnmarshalBinary] of these bytes into any live receiver succeeds and
    leaves it with the registers of [s] and with the alpha of [s], except
    that an alpha that compares equal to zero comes back as the positive
    zero: the receiver is [s] itself unless the alpha of [s] is the
    negative zero. *)
Theorem codec_roundtrip (h : store) (src : loc) (s : LogLogBeta)
    (h2 : store) (dst : loc) (t : LogLogBeta) :
  gob_contract ->
  h !! src = Some s -> h2 !! dst = Some t -> go_sketch s ->
  exists data s',
    MarshalBinary src h = Some ((data, None), h) /\
    UnmarshalBinary dst data h2 = Some (None, <[dst := s']> h2) /\
    llb_registers s' = llb_registers s /\
    llb_alpha s'
      = (if (llb_alpha s =? 0)%float then 0%float else llb_alpha s) /\
    (llb_alpha s <> (-0)%float -> s' = s).
Proof.
  intros Hgob Hs Ht [Hwf Hbytes].
  destruct (Hgob (saved s)) as [Henc Hdec].
  { split; [exact Hwf|split; [exact Hbytes|]].
    cbn [saved Version]. unfold version. lia. }
  exists (fst (gob_encode (saved s))),
    {| llb_registers := llb_registers s;
       llb_alpha := if (llb_alpha s =? 0)%float then 0%float
                    else llb_alpha s |}.
  split; [|split; [|split; [reflexivity|split; [reflexivity|]]]].
  - rewrite (MarshalBinary_run h src s Hs).
    destruct (gob_encode (saved s)) as [d e]. cbn in Henc. now subst e.
  - rewrite (UnmarshalBinary_success h2 dst t _ _ Ht Hdec). reflexivity.
  - intros Hnz. destruct s as [regs a]. cbn [llb_registers llb_alpha] in *.
    f_equal. destruct (a =? 0)%float eqn:E; [|reflexivity].
    destruct (float_zero_cases _ E) as [->| ->]; [reflexivity|contradiction].
Qed.

(** C7, as amended. [UnmarshalBinary] judges the input by the decoder
    alone. When the decoder reports an error, however far it had filled
    its destination, that error is returned and every sketch of the
    store, the receiver included, is what it was. When the decoder
    accepts the input, nil is returned and both fields of the receiver
    are overwritten by the decoded ones: the [Version] read is not looked
    at, and a field that the input lacks arrives as its zero value. *)
Theorem UnmarshalBinary_atomic (h : store) (llb : loc) (s : LogLogBeta)
    (data : list Z) :
  h !! llb = Some s ->
  (forall sllb e, gob_decode data savedLLB_zero = (sllb, Some e) ->
     UnmarshalBinary llb data h = Some (Some e, h)) /\
  (forall sllb, gob_decode data savedLLB_zero = (sllb, None) ->
     UnmarshalBinary llb data h
       = Some (None, <[llb := {| llb_registers := Registers sllb;
                                 llb_alpha := Alpha sllb |}]> h)).
Proof.
  intros Hl. split.
  - intros sllb e Hdec. unfold UnmarshalBinary.
    destruct (gob_decode data savedLLB_zero) as [sllb' err] eqn:Hrun.
    injection Hdec as -> ->. reflexivity.
  - intros sllb Hdec. exact (UnmarshalBinary_success h llb s data sllb Hl Hdec).
Qed.

End Codec.

Lemma codec_roundtrip_witness :
  exists data s',
    @MarshalBinary Wire.gob 2 store_two = Some ((data, None), store_two) /\
    @UnmarshalBinary Wire.gob 1 data store_two
      = Some (None, <[1%positive := s']> store_two) /\
    llb_registers s' = llb_registers sketch_one /\
    llb_alpha s'
      = (if (llb_alpha sketch_one =? 0)%float then 0%float
         else llb_alpha sketch_one) /\
    (llb_alpha sketch_one <> (-0)%float -> s' = sketch_one).
Proof.
  exact (@codec_roundtrip Wire.gob store_two 2 sketch_one store_two 1
           sketch_empty Wire_contract store_two_2 store_two_1 sketch_one_go).
Defined.

(** The claim as first stated fails on a sketch whose alpha is the
    negative zero. Such a sketch arises from [UnmarshalBinary] of a
    message that carries that alpha; its own serialization omits the
    field, as gob omits every zero-valued field, and a receiver that
    decodes it ends with the positive zero: the bits of the alpha went
    from 0x8000000000000000 to 0. *)
Lemma codec_roundtrip_negative_zero :
  @UnmarshalBinary Wire.gob 1 payload_negzero store_two
    = Some (None, <[1%positive := sketch_negzero]> store_two) /\
  @MarshalBinary Wire.gob 1 (<[1%positive := sketch_negzero]> store_two)
    = Some ((fst (Wire.encode (saved sketch_negzero)), None),
            <[1%positive := sketch_negzero]> store_two) /\
  @UnmarshalBinary Wire.gob 2 (fst (Wire.encode (saved sketch_negzero)))
      (<[1%positive := sketch_negzero]> store_two)
    = Some (None,
            <[2%positive := {| llb_registers := replicate (Z.to_nat m) 0;
                               llb_alpha := 0%float |}]>
              (<[1%positive := sketch_negzero]> store_two)) /\
  Ref.float64_bits (llb_alpha sketch_negzero) = 2 ^ 63 /\
  Ref.float64_bits 0%float = 0.
Proof.
  split; [|split; [|split; [|split; reflexivity]]].
  - rewrite (@UnmarshalBinary_success Wire.gob store_two 1 sketch_empty
               payload_negzero
               {| Registers := replicate (Z.to_nat m) 0; Alpha := (-0)%float;
                  Version := 1 |} store_two_1);
      [reflexivity|vm_compute; reflexivity].
  - rewrite (@MarshalBinary_run Wire.gob _ 1 sketch_negzero
               (lookup_insert_eq _ _ _)).
    reflexivity.
  - rewrite (@UnmarshalBinary_success Wire.gob _ 2 sketch_one
               (fst (Wire.encode (saved sketch_negzero)))
               {| Registers := replicate (Z.to_nat m) 0; Alpha := 0%float;
                  Version := 1 |});
      [reflexivity| |vm_compute; reflexivity].
    rewrite lookup_insert_ne by discriminate. exact store_two_2.
Qed.

Lemma UnmarshalBinary_atomic_witness :
  @UnmarshalBinary Wire.gob 2 payload_cut store_two
    = Some (Some Wire.ErrUnexpectedEOF, store_two) /\
  @UnmarshalBinary Wire.gob 2 payload_negzero store_two
    = Some (None, <[2%positive := sketch_negzero]> store_two).
Proof.
  split.
  - apply (proj1 (@UnmarshalBinary_atomic Wire.gob store_two 2 sketch_one
                    payload_cut store_two_2)
             {| Registers := <[5%nat := 7]> (replicate (Z.to_nat m) 0);
                Alpha := 0%float; Version := 0 |}).
    vm_compute. reflexivity.
  - apply (proj2 (@UnmarshalBinary_atomic Wire.gob store_two 2 sketch_one
                    payload_negzero store_two_2)
             {| Registers := replicate (Z.to_nat m) 0; Alpha := (-0)%float;
                Version := 1 |}).
    vm_compute. reflexivity.
Defined.

(** The claim as first stated fails on an input that is no serialization
    of any sketch: a message that carries an [Alpha] and neither
    [Registers] nor [Version] is accepted, and the receiver, whose
    register 5 held 10, is left with every register zero and the alpha
    0.5. *)
Lemma UnmarshalBinary_accepts_incomplete :
  @UnmarshalBinary Wire.gob 2 payload_alpha_only store_two
    = Some (None,
            <[2%positive := {| llb_registers := replicate (Z.to_nat m) 0;
                               llb_alpha := 0.5%float |}]> store_two) /\
  store_two !! 2%positive = Some sketch_one /\
  llb_registers sketch_one !! 5%nat = Some 10 /\
  replicate (Z.to_nat m) 0 !! 5%nat = Some 0.
Proof.
  split; [|split; [exact store_two_2|split; reflexivity]].
  rewrite (@UnmarshalBinary_success Wire.gob store_two 2 sketch_one
             payload_alpha_only
             {| Registers := replicate (Z.to_nat m) 0; Alpha := 0.5%float;
                Version := 0 |} store_two_2);
    [reflexivity|vm_compute; reflexivity].
Qed.

(** ** The alpha field over the lifetime of a sketch *)

Lemma alpha_New : alpha (float64_of_Z m) = (0.7213 / (1 + 1.079 / 16384))%float.
Proof. reflexivity. Qed.

Section AlphaLifetime.
Context `{MathPkg} `{Platform} `{MetroPkg} `{GobPkg}.

Lemma AddHash_alpha h llb s x :
  h !! llb = Some s -> wf_sketch s -> 0 <= x < 2 ^ 64 ->
  exists h', AddHash llb x h = Some (tt, h') /\ alpha_preserved h h'.
Proof.
  intros Hl Hwf Hx.
  destruct (AddHash_run h llb s x Hl Hwf Hx) as (r & _ & Hrun).
  eexists. split; [exact Hrun|].
  now apply (alpha_preserved_insert h llb s).
Qed.

(** C9, as the code has it. [New] sets alpha to [0.7213 / (1 + 1.079/m)]
    for [m] = 2^14. [AddHash], [Add], [Merge], [Cardinality],
    [MarshalBinary] and an [UnmarshalBinary] whose decoding fails leave
    the alpha of every sketch as it was. An [UnmarshalBinary] whose
    decoding succeeds sets the receiver's alpha to the decoded [Alpha]. *)
Theorem alpha_lifetime (h : store) (llb other : loc) (s o : LogLogBeta)
    (x : Z) (value : list Z) :
  h !! llb = Some s -> h !! other = Some o ->
  wf_sketch s -> wf_sketch o -> 0 <= x < 2 ^ 64 ->
  (exists l h', New h = Some (l, h') /\ h !! l = None /\
     llb_alpha <$> h' !! l = Some (0.7213 / (1 + 1.079 / 16384))%float /\
     alpha_preserved h h') /\
  (exists h', AddHash llb x h = Some (tt, h') /\ alpha_preserved h h') /\
  (exists h', Add llb value h = Some (tt, h') /\ alpha_preserved h h') /\
  (exists h', Merge llb other h = Some (tt, h') /\ alpha_preserved h h') /\
  (exists n, Cardinality llb h = Some (n, h)) /\
  MarshalBinary llb h = Some (gob_encode (saved s), h) /\
  (forall data sllb e,
     gob_decode data savedLLB_zero = (sllb, Some e) ->
     UnmarshalBinary llb data h = Some (Some e, h)) /\
  (forall data sllb,
     gob_decode data savedLLB_zero = (sllb, None) ->
     exists h', UnmarshalBinary llb data h = Some (None, h') /\
       llb_alpha <$> h' !! llb = Some (Alpha sllb)).
Proof.
  intros Hl Ho Hs Hwo Hx.
  split.
  { eexists _, _. split; [reflexivity|]. split; [apply New_fresh|].
    split; [now rewrite lookup_insert_eq|].
    apply alpha_preserved_fresh, New_fresh. }
  split; [now apply (AddHash_alpha h llb s)|].
  split; [apply (AddHash_alpha h llb s); auto; apply wrap_range; lia|].
  split.
  { eexists. split; [apply (Merge_run h llb other s o); assumption|].
    now apply (alpha_preserved_insert h llb s). }
  split; [eexists; apply (Cardinality_run h llb s Hl Hs)|].
  split; [apply (MarshalBinary_run h llb s Hl)|].
  split; [intros data sllb e; apply UnmarshalBinary_error|].
  intros data sllb Hdec. eexists.
  split; [apply (UnmarshalBinary_success h llb s data sllb Hl Hdec)|].
  now rewrite lookup_insert_eq.
Qed.

End AlphaLifetime.

(** A successful [UnmarshalBinary] changes the alpha of a sketch that
    [New] built: decoding [payload_half] into the sketch at address 1
    replaces 0.7213 / (1 + 1.079/16384) by 0.5. *)
Lemma UnmarshalBinary_changes_alpha :
  exists h',
    @UnmarshalBinary Ref.gob 1 payload_half store_two = Some (None, h') /\
    llb_alpha <$> store_two !! 1%positive
      = Some (0.7213 / (1 + 1.079 / 16384))%float /\
    llb_alpha <$> h' !! 1%positive = Some 0.5%float /\
    ((0.7213 / (1 + 1.079 / 16384)) =? 0.5)%float = false.
Proof.
  eexists. split.
  - apply (@UnmarshalBinary_success Ref.gob store_two 1 sketch_empty payload_half
             {| Registers := replicate (Z.to_nat m) 0; Alpha := 0.5%float;
                Version := 1 |} store_two_1).
    vm_compute. reflexivity.
  - split; [rewrite store_two_1; reflexivity|].
    split; [now rewrite lookup_insert_eq|reflexivity].
Qed.

Lemma alpha_lifetime_witness :
  (exists l h', New store_two = Some (l, h') /\ store_two !! l = None /\
     llb_alpha <$> h' !! l = Some (0.7213 / (1 + 1.079 / 16384))%float /\
     alpha_preserved store_two h') /\
  (exists h', AddHash 1 (2 ^ 63) store_two = Some (tt, h') /\
     alpha_preserved store_two h') /\
  (exists h', @Add Ref.metro 1 [97] store_two = Some (tt, h') /\
     alpha_preserved store_two h') /\
  (exists h', Merge 1 2 store_two = Some (tt, h') /\
     alpha_preserved store_two h') /\
  (exists n, @Cardinality Ref.math Ref.platform 1 store_two = Some (n, store_two)) /\
  @MarshalBinary Ref.gob 1 store_two
    = Some (@gob_encode Ref.gob (saved sketch_empty), store_two) /\
  (forall data sllb e,
     @gob_decode Ref.gob data savedLLB_zero = (sllb, Some e) ->
     @UnmarshalBinary Ref.gob 1 data store_two = Some (Some e, store_two)) /\
  (forall data sllb,
     @gob_decode Ref.gob data savedLLB_zero = (sllb, None) ->
     exists h', @UnmarshalBinary Ref.gob 1 data store_two = Some (None, h') /\
       llb_alpha <$> h' !! 1%positive = Some (Alpha sllb)).
Proof.
  apply (@alpha_lifetime Ref.math Ref.platform Ref.metro Ref.gob store_two 1 2
           sketch_empty sketch_one (2 ^ 63) [97]
           store_two_1 store_two_2 sketch_empty_wf sketch_one_wf).
  lia.
Defined.


(** * Further properties of the package *)

(** ** The hash splitter in closed form *)

Lemma split_word_value x :
  0 <= x < 2 ^ 64 ->
  Z.lxor (wrap 64 (Z.shiftl x precision)) maxX
    = (x mod 2 ^ 50) * 2 ^ 14 + (2 ^ 14 - 1).
Proof.
  intros Hx. unfold wrap, precision. rewrite maxX_value.
  rewrite Z.shiftl_mul_pow2 by lia.
  change (2 ^ 64) with (2 ^ 50 * 2 ^ 14).
  rewrite Z.mul_mod_distr_r by lia.
  symmetry. apply Z.add_nocarry_lxor.
  change (2 ^ 14 - 1) with (Z.ones 14).
  rewrite Z.land_ones by lia. apply Z.mod_mul. lia.
Qed.

Lemma log2_low_ones y :
  0 < y -> Z.log2 (y * 2 ^ 14 + (2 ^ 14 - 1)) = Z.log2 y + 14.
Proof.
  intros Hy. pose proof (Z.log2_nonneg y) as Hl.
  destruct (Z.log2_spec y Hy) as [Hlo Hhi].
  apply Z.log2_unique; [lia|].
  rewrite Z.pow_add_r by lia.
  replace (Z.succ (Z.log2 y + 14)) with (Z.succ (Z.log2 y) + 14) by lia.
  rewrite (Z.pow_add_r 2 (Z.succ (Z.log2 y))) by lia.
  lia.
Qed.

(** The rank depends on the low 50 bits of the hash only. *)
Lemma rank_closed_form x :
  0 <= x < 2 ^ 64 ->
  snd (getPosVal x) =
    if x mod 2 ^ 50 =? 0 then 51 else 50 - Z.log2 (x mod 2 ^ 50).
Proof.
  intros Hx. cbn [getPosVal snd].
  pose proof (Clz_split_word x) as Hc.
  rewrite split_word_value in * by exact Hx.
  unfold wrap at 1 2.
  rewrite (Z.mod_small (Clz _)) by lia. rewrite Z.mod_small by lia.
  pose proof (Z.mod_pos_bound x (2 ^ 50) ltac:(lia)) as Hy.
  destruct (Z.eqb_spec (x mod 2 ^ 50) 0) as [->|Hne]; [reflexivity|].
  rewrite Clz_log2, log2_low_ones by lia. lia.
Qed.

Lemma index_closed_form x : fst (getPosVal x) = x / 2 ^ 50.
Proof.
  cbn [getPosVal fst].
  rewrite Z.shiftr_div_pow2 by (unfold max, precision; lia). reflexivity.
Qed.

(** X1. The two results of [getPosVal] in closed form: the index is
    [x / 2^50], and the rank depends on the low 50 bits [y] of the hash
    only: 51 when [y] is zero, [50 - log2 y] otherwise. *)
Theorem getPosVal_closed_form (x : Z) :
  0 <= x < 2 ^ 64 ->
  getPosVal x =
    (x / 2 ^ 50,
     if x mod 2 ^ 50 =? 0 then 51 else 50 - Z.log2 (x mod 2 ^ 50)).
Proof.
  intros Hx. rewrite (surjective_pairing (getPosVal x)).
  rewrite index_closed_form, rank_closed_form by exact Hx. reflexivity.
Qed.

Lemma getPosVal_closed_form_witness :
  0 <= 3 * 2 ^ 50 + 5 < 2 ^ 64 /\
  getPosVal (3 * 2 ^ 50 + 5) =
    ((3 * 2 ^ 50 + 5) / 2 ^ 50,
     if (3 * 2 ^ 50 + 5) mod 2 ^ 50 =? 0 then 51
     else 50 - Z.log2 ((3 * 2 ^ 50 + 5) mod 2 ^ 50)).
Proof.
  split; [lia | apply (getPosVal_closed_form (3 * 2 ^ 50 + 5)); lia].
Defined.

(** X2. Every index below [m] and every rank from 1 to 51 is reached:
    the hash with index bits [k] and low bits [2^(50 - r)] (or zero for
    rank 51) is split into [(k, r)]. *)
Theorem getPosVal_onto (k r : Z) :
  0 <= k < m -> 1 <= r <= 51 ->
  let x := k * 2 ^ 50 + (if r =? 51 then 0 else 2 ^ (50 - r)) in
  0 <= x < 2 ^ 64 /\ getPosVal x = (k, r).
Proof.
  intros Hk Hr x. rewrite m_value in Hk.
  assert (Hlow : 0 <= (if r =? 51 then 0 else 2 ^ (50 - r)) < 2 ^ 50).
  { destruct (Z.eqb_spec r 51); [lia|]. split; [apply Z.pow_nonneg; lia|].
    apply Z.pow_lt_mono_r; lia. }
  assert (Hx : 0 <= x < 2 ^ 64) by (unfold x; lia).
  split; [exact Hx|].
  rewrite (surjective_pairing (getPosVal x)).
  rewrite index_closed_form, rank_closed_form by exact Hx.
  assert (Hdiv : x / 2 ^ 50 = k).
  { unfold x. rewrite Z.add_comm, Z.div_add by lia.
    rewrite Z.div_small by lia. lia. }
  assert (Hmod : x mod 2 ^ 50 = if r =? 51 then 0 else 2 ^ (50 - r)).
  { unfold x. rewrite Z.add_comm, Z.mod_add by lia.
    apply Z.mod_small. exact Hlow. }
  rewrite Hdiv, Hmod. f_equal.
  destruct (Z.eqb_spec r 51) as [->|Hne]; [reflexivity|].
  assert (0 < 2 ^ (50 - r)) by (apply Z.pow_pos_nonneg; lia).
  destruct (Z.eqb_spec (2 ^ (50 - r)) 0); [lia|].
  rewrite Z.log2_pow2 by lia. lia.
Qed.

Lemma getPosVal_onto_witness :
  0 <= 7 < m /\ 1 <= 10 <= 51 /\
  0 <= 7 * 2 ^ 50 + 2 ^ 40 < 2 ^ 64 /\
  getPosVal (7 * 2 ^ 50 + 2 ^ 40) = (7, 10).
Proof.
  split; [rewrite m_value; lia|]. split; [lia|].
  apply (getPosVal_onto 7 10); [rewrite m_value; lia | lia].
Defined.

(** ** Streams of hashes *)

Lemma rank_positive x : 0 <= x < 2 ^ 64 -> 1 <= snd (getPosVal x) <= 51.
Proof.
  intros Hx. rewrite rank_closed_form by exact Hx.
  pose proof (Z.mod_pos_bound x (2 ^ 50) ltac:(lia)) as Hy.
  destruct (Z.eqb_spec (x mod 2 ^ 50) 0); [lia|].
  pose proof (Z.log2_nonneg (x mod 2 ^ 50)).
  assert (Z.log2 (x mod 2 ^ 50) < 50) by (apply Z.log2_lt_pow2; lia).
  lia.
Qed.

Lemma index_bounds x : 0 <= x < 2 ^ 64 -> 0 <= fst (getPosVal x) < m.
Proof. intros Hx. apply (index_in_range x Hx). Qed.

Lemma add_register_length regs x : length (add_register regs x) = length regs.
Proof.
  unfold add_register. destruct (regs !! _); [apply length_insert|reflexivity].
Qed.

(** One [AddHash] on a well-formed sketch is [add_register] on its array. *)
Lemma AddHash_step h llb s x :
  h !! llb = Some s -> wf_sketch s -> is_uint64 x ->
  AddHash llb x h =
    Some (tt, <[llb := {| llb_registers := add_register (llb_registers s) x;
                          llb_alpha := llb_alpha s |}]> h).
Proof.
  intros Hl Hwf Hx.
  destruct (AddHash_run h llb s x Hl Hwf Hx) as (r & Hr & Hrun).
  rewrite Hrun. unfold add_register. now rewrite Hr.
Qed.

Lemma AddHash_all_run llb xs :
  forall h s,
    h !! llb = Some s -> wf_sketch s -> Forall is_uint64 xs ->
    AddHash_all llb xs h =
      Some (tt, <[llb := {| llb_registers := registers_after xs (llb_registers s);
                            llb_alpha := llb_alpha s |}]> h).
Proof.
  induction xs as [|x xs IH]; intros h s Hl Hwf Hxs.
  - cbn. unfold ret. now rewrite sketch_eta, insert_id.
  - apply Forall_cons in Hxs as [Hx Hxs]. cbn [AddHash_all].
    rewrite (bind_run _ _ _ _ _ (AddHash_step h llb s x Hl Hwf Hx)).
    rewrite (IH _ _ (lookup_insert_eq _ _ _)).
    + cbn. now rewrite insert_insert_eq.
    + unfold wf_sketch in *. cbn. now rewrite add_register_length.
    + exact Hxs.
Qed.

Lemma add_register_lookup regs x j v :
  is_uint64 x -> regs !! j = Some v ->
  add_register regs x !! j =
    Some (if fst (getPosVal x) =? Z.of_nat j
          then Z.max v (snd (getPosVal x)) else v).
Proof.
  intros Hx Hv. pose proof (index_bounds x Hx) as Hk.
  unfold add_register.
  destruct (Z.eqb_spec (fst (getPosVal x)) (Z.of_nat j)) as [Heq|Hne].
  - rewrite Heq, Nat2Z.id, Hv.
    apply list_lookup_insert_eq. now apply lookup_lt_Some in Hv.
  - destruct (regs !! Z.to_nat (fst (getPosVal x))); [|exact Hv].
    rewrite list_lookup_insert_ne; [exact Hv|]. lia.
Qed.

Lemma registers_after_lookup xs :
  forall regs j v,
    Forall is_uint64 xs -> regs !! j = Some v ->
    registers_after xs regs !! j = Some (max_rank (Z.of_nat j) xs v).
Proof.
  induction xs as [|x xs IH]; intros regs j v Hxs Hv; [exact Hv|].
  apply Forall_cons in Hxs as [Hx Hxs].
  unfold registers_after, max_rank. cbn [fold_left].
  apply (IH _ j _ Hxs). now apply add_register_lookup.
Qed.

Lemma registers_after_length xs :
  forall regs, length (registers_after xs regs) = length regs.
Proof.
  induction xs as [|x xs IH]; intros regs; [reflexivity|].
  unfold registers_after. cbn [fold_left].
  fold (registers_after xs (add_register regs x)).
  now rewrite IH, add_register_length.
Qed.

Lemma max_rank_le j xs :
  forall v0 B,
    v0 <= B ->
    (forall x, x ∈ xs -> fst (getPosVal x) = j -> snd (getPosVal x) <= B) ->
    max_rank j xs v0 <= B.
Proof.
  induction xs as [|x xs IH]; intros v0 B Hv HB; [exact Hv|].
  unfold max_rank. cbn [fold_left]. apply IH.
  - destruct (Z.eqb_spec (fst (getPosVal x)) j); [|exact Hv].
    apply Z.max_lub; [exact Hv|]. apply HB; [constructor|assumption].
  - intros y Hy. apply HB. now constructor.
Qed.

Lemma max_rank_ge_init j xs : forall v0, v0 <= max_rank j xs v0.
Proof.
  induction xs as [|x xs IH]; intros v0; [reflexivity|].
  unfold max_rank. cbn [fold_left].
  etransitivity; [|apply IH].
  destruct (fst (getPosVal x) =? j); lia.
Qed.

Lemma max_rank_ge_elem j xs :
  forall v0 x, x ∈ xs -> fst (getPosVal x) = j ->
    snd (getPosVal x) <= max_rank j xs v0.
Proof.
  induction xs as [|y xs IH]; intros v0 x Hin Hj; [inversion Hin|].
  unfold max_rank. cbn [fold_left].
  apply elem_of_cons in Hin as [->|Hin].
  - rewrite (proj2 (Z.eqb_eq _ _) Hj).
    etransitivity; [|apply max_rank_ge_init]. lia.
  - now apply IH.
Qed.

Lemma max_rank_same_elements j xs ys v0 :
  (forall x, x ∈ xs <-> x ∈ ys) -> max_rank j xs v0 = max_rank j ys v0.
Proof.
  intros Hset. apply Z.le_antisymm; apply max_rank_le;
    try apply max_rank_ge_init; intros x Hx Hj;
    apply max_rank_ge_elem; try exact Hj; now apply Hset.
Qed.

Lemma registers_after_same_elements xs ys regs :
  Forall is_uint64 xs -> Forall is_uint64 ys ->
  (forall x, x ∈ xs <-> x ∈ ys) ->
  registers_after xs regs = registers_after ys regs.
Proof.
  intros Hxs Hys Hset. apply list_eq. intros j.
  destruct (regs !! j) as [v|] eqn:Hv.
  - rewrite (registers_after_lookup xs regs j v Hxs Hv).
    rewrite (registers_after_lookup ys regs j v Hys Hv).
    f_equal. now apply max_rank_same_elements.
  - apply lookup_ge_None in Hv.
    rewrite !(proj2 (lookup_ge_None _ _)); [reflexivity| |];
      rewrite registers_after_length; exact Hv.
Qed.

(** X3. A sketch depends on the set of hashes it was fed, not on their
    order or their repetitions: two streams with the same elements,
    ingested by [AddHash] from the same state, leave the same store. *)
Theorem AddHash_all_same_elements (h : store) (llb : loc) (s : LogLogBeta)
    (xs ys : list Z) :
  h !! llb = Some s -> wf_sketch s ->
  Forall is_uint64 xs -> Forall is_uint64 ys ->
  (forall x, x ∈ xs <-> x ∈ ys) ->
  exists h', AddHash_all llb xs h = Some (tt, h') /\
             AddHash_all llb ys h = Some (tt, h').
Proof.
  intros Hl Hwf Hxs Hys Hset. eexists. split.
  - apply (AddHash_all_run llb xs h s Hl Hwf Hxs).
  - rewrite (AddHash_all_run llb ys h s Hl Hwf Hys).
    now rewrite (registers_after_same_elements xs ys).
Qed.

Lemma AddHash_all_same_elements_witness :
  exists h', AddHash_all 1 [5; 2 ^ 60; 5; 2 ^ 63] store_two = Some (tt, h') /\
             AddHash_all 1 [2 ^ 63; 5; 2 ^ 60] store_two = Some (tt, h').
Proof.
  apply (AddHash_all_same_elements store_two 1 sketch_empty
           [5; 2 ^ 60; 5; 2 ^ 63] [2 ^ 63; 5; 2 ^ 60]
           store_two_1 sketch_empty_wf).
  - repeat constructor; unfold is_uint64; lia.
  - repeat constructor; unfold is_uint64; lia.
  - intros x. rewrite !elem_of_cons, !elem_of_nil. tauto.
Defined.

(** X4. What a sketch holds after a stream of hashes: every register [j]
    is the largest of its previous value and the ranks of the hashes
    whose index is [j]; the alpha and every other sketch are untouched. *)
Theorem AddHash_all_registers (h : store) (llb : loc) (s : LogLogBeta)
    (xs : list Z) :
  h !! llb = Some s -> wf_sketch s -> Forall is_uint64 xs ->
  exists h' s',
    AddHash_all llb xs h = Some (tt, h') /\ h' !! llb = Some s' /\
    llb_alpha s' = llb_alpha s /\
    length (llb_registers s') = length (llb_registers s) /\
    (forall j v, llb_registers s !! j = Some v ->
       llb_registers s' !! j = Some (max_rank (Z.of_nat j) xs v) /\
       v <= max_rank (Z.of_nat j) xs v /\
       (forall x, x ∈ xs -> fst (getPosVal x) = Z.of_nat j ->
          snd (getPosVal x) <= max_rank (Z.of_nat j) xs v)) /\
    (forall l, l <> llb -> h' !! l = h !! l).
Proof.
  intros Hl Hwf Hxs. eexists _, _.
  split; [apply (AddHash_all_run llb xs h s Hl Hwf Hxs)|].
  split; [apply lookup_insert_eq|]. cbn [llb_alpha llb_registers].
  split; [reflexivity|]. split; [apply registers_after_length|]. split.
  - intros j v Hv. split; [now apply registers_after_lookup|].
    split; [apply max_rank_ge_init|]. intros x. apply max_rank_ge_elem.
  - intros l Hne. now rewrite lookup_insert_ne.
Qed.

Lemma AddHash_all_registers_witness :
  exists h' s',
    AddHash_all 2 [5; 2 ^ 60] store_two = Some (tt, h') /\
    h' !! 2%positive = Some s' /\
    llb_alpha s' = llb_alpha sketch_one /\
    length (llb_registers s') = length (llb_registers sketch_one) /\
    (forall j v, llb_registers sketch_one !! j = Some v ->
       llb_registers s' !! j = Some (max_rank (Z.of_nat j) [5; 2 ^ 60] v) /\
       v <= max_rank (Z.of_nat j) [5; 2 ^ 60] v /\
       (forall x, x ∈ [5; 2 ^ 60] -> fst (getPosVal x) = Z.of_nat j ->
          snd (getPosVal x) <= max_rank (Z.of_nat j) [5; 2 ^ 60] v)) /\
    (forall l, l <> 2%positive -> h' !! l = store_two !! l).
Proof.
  apply (AddHash_all_registers store_two 2 sketch_one [5; 2 ^ 60]
           store_two_2 sketch_one_wf).
  repeat constructor; unfold is_uint64; lia.
Defined.

Lemma max_rank_zero_iff j xs v0 :
  0 <= v0 -> Forall is_uint64 xs ->
  max_rank j xs v0 = 0 <->
  v0 = 0 /\ forall x, x ∈ xs -> fst (getPosVal x) <> j.
Proof.
  intros Hv Hxs. split.
  - intros Hz. pose proof (max_rank_ge_init j xs v0) as Hge.
    split; [lia|]. intros x Hin Hj.
    pose proof (max_rank_ge_elem j xs v0 x Hin Hj) as Hr.
    rewrite Forall_forall in Hxs.
    pose proof (rank_positive x (Hxs x Hin)). lia.
  - intros [-> Hno]. apply Z.le_antisymm; [|apply max_rank_ge_init].
    apply max_rank_le; [lia|]. intros x Hin Hj. now destruct (Hno x Hin).
Qed.

(** X5. The zero registers are the buckets that no hash reached: after a
    stream of hashes, a register that was zero is still zero exactly when
    no hash of the stream has its index, and a register that was
    positive, or that a hash reached, is not zero. *)
Theorem register_zero_iff_unhit (h : store) (llb : loc) (s : LogLogBeta)
    (xs : list Z) (j : nat) (v : Z) :
  h !! llb = Some s -> wf_sketch s -> Forall is_uint64 xs ->
  llb_registers s !! j = Some v -> 0 <= v ->
  exists h' s' v',
    AddHash_all llb xs h = Some (tt, h') /\ h' !! llb = Some s' /\
    llb_registers s' !! j = Some v' /\
    (v' = 0 <->
     v = 0 /\ forall x, x ∈ xs -> fst (getPosVal x) <> Z.of_nat j).
Proof.
  intros Hl Hwf Hxs Hv Hpos. eexists _, _, _.
  split; [apply (AddHash_all_run llb xs h s Hl Hwf Hxs)|].
  split; [apply lookup_insert_eq|]. cbn [llb_registers].
  split; [apply (registers_after_lookup xs _ j v Hxs Hv)|].
  now apply max_rank_zero_iff.
Qed.

Lemma register_zero_iff_unhit_witness :
  exists h' s' v',
    AddHash_all 1 [5; 2 ^ 60] store_two = Some (tt, h') /\
    h' !! 1%positive = Some s' /\
    llb_registers s' !! 3%nat = Some v' /\
    (v' = 0 <->
     0 = 0 /\ forall x, x ∈ [5; 2 ^ 60] -> fst (getPosVal x) <> Z.of_nat 3).
Proof.
  apply (register_zero_iff_unhit store_two 1 sketch_empty [5; 2 ^ 60] 3 0
           store_two_1 sketch_empty_wf).
  - repeat constructor; unfold is_uint64; lia.
  - reflexivity.
  - lia.
Defined.

(** ** Merge as a register-wise maximum *)

Lemma merge_registers_lookup a b j u v :
  a !! j = Some u -> b !! j = Some v ->
  merge_registers a b !! j = Some (Z.max u v).
Proof.
  intros Ha Hb. unfold merge_registers.
  rewrite lookup_zip_with, Ha, Hb. reflexivity.
Qed.

Lemma merge_registers_assoc a : forall b c,
  merge_registers (merge_registers a b) c
    = merge_registers a (merge_registers b c).
Proof.
  unfold merge_registers.
  induction a as [|u a IH]; intros [|v b] [|w c]; cbn; try reflexivity.
  now rewrite Z.max_assoc, IH.
Qed.

Lemma merge_registers_absorb a : forall b,
  Forall2 Z.le b a -> merge_registers a b = a.
Proof.
  unfold merge_registers.
  induction a as [|u a IH]; intros b Hle; inversion Hle; subst; cbn;
    [reflexivity|].
  rewrite IH by assumption. f_equal. lia.
Qed.

(** X6. [Merge] computes the register-wise maximum: every register of
    the receiver becomes the larger of its value and the argument's, and
    nothing else changes (the receiver's alpha, its length, every other
    sketch of the store). *)
Theorem Merge_registerwise_max (h : store) (llb other : loc) (A B : LogLogBeta) :
  h !! llb = Some A -> h !! other = Some B -> wf_sketch A -> wf_sketch B ->
  exists h' A',
    Merge llb other h = Some (tt, h') /\ h' !! llb = Some A' /\
    llb_alpha A' = llb_alpha A /\
    length (llb_registers A') = length (llb_registers A) /\
    (forall j u v,
       llb_registers A !! j = Some u -> llb_registers B !! j = Some v ->
       llb_registers A' !! j = Some (Z.max u v)) /\
    (forall l, l <> llb -> h' !! l = h !! l).
Proof.
  intros Hl Ho HA HB. eexists _, _.
  split; [apply (Merge_run h llb other A B); assumption|].
  split; [apply lookup_insert_eq|]. cbn [llb_alpha llb_registers].
  split; [reflexivity|].
  split; [apply merge_registers_length; unfold wf_sketch in *; lia|].
  split; [intros j u v; apply merge_registers_lookup|].
  intros l Hne. now rewrite lookup_insert_ne.
Qed.

Lemma Merge_registerwise_max_witness :
  exists h' A',
    Merge 1 2 store_two = Some (tt, h') /\ h' !! 1%positive = Some A' /\
    llb_alpha A' = llb_alpha sketch_empty /\
    length (llb_registers A') = length (llb_registers sketch_empty) /\
    (forall j u v,
       llb_registers sketch_empty !! j = Some u ->
       llb_registers sketch_one !! j = Some v ->
       llb_registers A' !! j = Some (Z.max u v)) /\
    (forall l, l <> 1%positive -> h' !! l = store_two !! l).
Proof.
  exact (Merge_registerwise_max store_two 1 2 sketch_empty sketch_one
           store_two_1 store_two_2 sketch_empty_wf sketch_one_wf).
Defined.

(** X7. Merging in a sketch that is register-wise below the receiver
    changes nothing; in particular an empty sketch is neutral for
    [Merge]. *)
Theorem Merge_absorbs (h : store) (llb other : loc) (A B : LogLogBeta) :
  h !! llb = Some A -> h !! other = Some B -> wf_sketch A -> wf_sketch B ->
  registers_le B A ->
  Merge llb other h = Some (tt, h).
Proof.
  intros Hl Ho HA HB Hle.
  rewrite (Merge_run h llb other A B) by assumption.
  rewrite merge_registers_absorb by exact Hle.
  now rewrite sketch_eta, insert_id.
Qed.

Lemma sketch_empty_le_one : registers_le sketch_empty sketch_one.
Proof.
  unfold registers_le. cbn.
  apply (insert_max_le (replicate (Z.to_nat m) 0) 5 0 10).
  apply lookup_replicate_2. pose proof m_value. lia.
Defined.

Lemma Merge_absorbs_witness : Merge 2 1 store_two = Some (tt, store_two).
Proof.
  exact (Merge_absorbs store_two 2 1 sketch_one sketch_empty
           store_two_2 store_two_1 sketch_one_wf sketch_empty_wf
           sketch_empty_le_one).
Defined.

Lemma sketch_two_wf : wf_sketch sketch_two.
Proof.
  unfold wf_sketch. cbn. rewrite !length_insert. apply length_replicate.
Defined.

Lemma merged_wf A B :
  wf_sketch A -> wf_sketch B ->
  wf_sketch {| llb_registers := merge_registers (llb_registers A) (llb_registers B);
               llb_alpha := llb_alpha A |}.
Proof.
  unfold wf_sketch. intros HA HB. cbn. rewrite merge_registers_length; lia.
Qed.

(** X8. [Merge] is associative on the registers: for three distinct
    sketches, merging [b] and then [c] into [a] gives [a] the registers
    it gets when [c] is first merged into [b] and [b] then into [a]. *)
Theorem Merge_associative (h : store) (a b c : loc) (A B C : LogLogBeta) :
  a <> b -> a <> c -> b <> c ->
  h !! a = Some A -> h !! b = Some B -> h !! c = Some C ->
  wf_sketch A -> wf_sketch B -> wf_sketch C ->
  exists h1 h2 g1 g2 A1 A2,
    Merge a b h = Some (tt, h1) /\ Merge a c h1 = Some (tt, h2) /\
    Merge b c h = Some (tt, g1) /\ Merge a b g1 = Some (tt, g2) /\
    h2 !! a = Some A1 /\ g2 !! a = Some A2 /\ A1 = A2.
Proof.
  intros Hab Hac Hbc Ha Hb Hc HA HB HC.
  set (AB := {| llb_registers := merge_registers (llb_registers A) (llb_registers B);
                llb_alpha := llb_alpha A |}).
  set (BC := {| llb_registers := merge_registers (llb_registers B) (llb_registers C);
                llb_alpha := llb_alpha B |}).
  eexists _, _, _, _, _, _.
  split; [apply (Merge_run h a b A B); assumption|].
  split.
  { apply (Merge_run (<[a := AB]> h) a c AB C).
    - apply lookup_insert_eq.
    - now rewrite lookup_insert_ne.
    - now apply merged_wf.
    - exact HC. }
  split; [apply (Merge_run h b c B C); assumption|].
  split.
  { apply (Merge_run (<[b := BC]> h) a b A BC).
    - now rewrite lookup_insert_ne by congruence.
    - apply lookup_insert_eq.
    - exact HA.
    - now apply merged_wf. }
  split; [apply lookup_insert_eq|]. split; [apply lookup_insert_eq|].
  cbn. now rewrite merge_registers_assoc.
Qed.

Lemma Merge_associative_witness :
  exists h1 h2 g1 g2 A1 A2,
    Merge 1 2 store_three = Some (tt, h1) /\ Merge 1 3 h1 = Some (tt, h2) /\
    Merge 2 3 store_three = Some (tt, g1) /\ Merge 1 2 g1 = Some (tt, g2) /\
    h2 !! 1%positive = Some A1 /\ g2 !! 1%positive = Some A2 /\ A1 = A2.
Proof.
  apply (Merge_associative store_three 1 2 3 sketch_empty sketch_one sketch_two);
    try discriminate; try reflexivity;
    first [apply sketch_empty_wf | apply sketch_one_wf | apply sketch_two_wf].
Defined.

(** X9. Merges into one sketch can be done in any order: merging [b]
    then [c] into [a] leaves the store that merging [c] then [b] leaves. *)
Theorem Merge_order_irrelevant (h : store) (a b c : loc) (A B C : LogLogBeta) :
  a <> b -> a <> c ->
  h !! a = Some A -> h !! b = Some B -> h !! c = Some C ->
  wf_sketch A -> wf_sketch B -> wf_sketch C ->
  exists h1 g1 h2,
    Merge a b h = Some (tt, h1) /\ Merge a c h1 = Some (tt, h2) /\
    Merge a c h = Some (tt, g1) /\ Merge a b g1 = Some (tt, h2).
Proof.
  intros Hab Hac Ha Hb Hc HA HB HC.
  set (AB := {| llb_registers := merge_registers (llb_registers A) (llb_registers B);
                llb_alpha := llb_alpha A |}).
  set (AC := {| llb_registers := merge_registers (llb_registers A) (llb_registers C);
                llb_alpha := llb_alpha A |}).
  eexists _, _, _.
  split; [apply (Merge_run h a b A B); assumption|].
  split.
  { rewrite (Merge_run (<[a := AB]> h) a c AB C);
      [| apply lookup_insert_eq | now rewrite lookup_insert_ne
       | now apply merged_wf | exact HC].
    rewrite insert_insert_eq. reflexivity. }
  split; [apply (Merge_run h a c A C); assumption|].
  rewrite (Merge_run (<[a := AC]> h) a b AC B);
    [| apply lookup_insert_eq | now rewrite lookup_insert_ne
     | now apply merged_wf | exact HB].
  rewrite insert_insert_eq. cbn. do 4 f_equal.
  rewrite !merge_registers_assoc. f_equal. apply merge_registers_comm.
Qed.

Lemma Merge_order_irrelevant_witness :
  exists h1 g1 h2,
    Merge 1 2 store_three = Some (tt, h1) /\ Merge 1 3 h1 = Some (tt, h2) /\
    Merge 1 3 store_three = Some (tt, g1) /\ Merge 1 2 g1 = Some (tt, h2).
Proof.
  apply (Merge_order_irrelevant store_three 1 2 3
           sketch_empty sketch_one sketch_two);
    try discriminate; try reflexivity;
    first [apply sketch_empty_wf | apply sketch_one_wf | apply sketch_two_wf].
Defined.

(** ** Merging sketches of two streams *)

Lemma max_rank_app j xs ys v :
  max_rank j (xs ++ ys) v = max_rank j ys (max_rank j xs v).
Proof. unfold max_rank. apply fold_left_app. Qed.

Lemma max_rank_max j xs : forall u v,
  max_rank j xs (Z.max u v) = Z.max u (max_rank j xs v).
Proof.
  induction xs as [|x xs IH]; intros u v; [reflexivity|].
  unfold max_rank. cbn [fold_left].
  destruct (fst (getPosVal x) =? j); [|apply IH].
  rewrite <- Z.max_assoc. apply IH.
Qed.

Lemma merge_registers_after xs ys a b :
  length a = length b -> Forall is_uint64 xs -> Forall is_uint64 ys ->
  merge_registers (registers_after xs a) (registers_after ys b)
    = registers_after (xs ++ ys) (merge_registers a b).
Proof.
  intros Hlen Hxs Hys. apply list_eq. intros j.
  destruct (a !! j) as [u|] eqn:Hu.
  - destruct (lookup_lt_is_Some_2 b j) as [v Hv];
      [rewrite <- Hlen; now apply lookup_lt_Some in Hu|].
    rewrite (merge_registers_lookup _ _ j _ _
               (registers_after_lookup xs a j u Hxs Hu)
               (registers_after_lookup ys b j v Hys Hv)).
    rewrite (registers_after_lookup (xs ++ ys) _ j (Z.max u v));
      [|apply Forall_app; now split|now apply merge_registers_lookup].
    f_equal. rewrite max_rank_app.
    rewrite (Z.max_comm u v), (max_rank_max _ xs v u).
    rewrite (Z.max_comm v (max_rank _ xs u)).
    rewrite (max_rank_max _ ys (max_rank _ xs u) v). reflexivity.
  - apply lookup_ge_None in Hu.
    rewrite !(proj2 (lookup_ge_None _ _)); [reflexivity| |].
    + rewrite registers_after_length, merge_registers_length; assumption.
    + rewrite merge_registers_length; rewrite !registers_after_length;
        assumption.
Qed.

(** X10. Union of streams, exactly: when [a] ingests the hashes [xs],
    [b] ingests [ys] and [b] is then merged into [a], the sketch [a] is
    the one obtained by merging first and letting [a] ingest [xs ++ ys].
    From two empty sketches, the merge is the sketch of the joint
    stream. *)
Theorem Merge_of_streams (h : store) (a b : loc) (A B : LogLogBeta)
    (xs ys : list Z) :
  a <> b -> h !! a = Some A -> h !! b = Some B ->
  wf_sketch A -> wf_sketch B ->
  Forall is_uint64 xs -> Forall is_uint64 ys ->
  exists h1 h2 h3 g1 g2 A',
    AddHash_all a xs h = Some (tt, h1) /\
    AddHash_all b ys h1 = Some (tt, h2) /\
    Merge a b h2 = Some (tt, h3) /\
    Merge a b h = Some (tt, g1) /\
    AddHash_all a (xs ++ ys) g1 = Some (tt, g2) /\
    h3 !! a = Some A' /\ g2 !! a = Some A'.
Proof.
  intros Hab Ha Hb HA HB Hxs Hys.
  pose proof HA as HA'. pose proof HB as HB'. unfold wf_sketch in HA', HB'.
  set (A1 := {| llb_registers := registers_after xs (llb_registers A);
                llb_alpha := llb_alpha A |}).
  set (B1 := {| llb_registers := registers_after ys (llb_registers B);
                llb_alpha := llb_alpha B |}).
  set (AB := {| llb_registers := merge_registers (llb_registers A) (llb_registers B);
                llb_alpha := llb_alpha A |}).
  assert (HA1 : wf_sketch A1)
    by (unfold wf_sketch; cbn; now rewrite registers_after_length).
  assert (HB1 : wf_sketch B1)
    by (unfold wf_sketch; cbn; now rewrite registers_after_length).
  eexists _, _, _, _, _, _.
  split; [apply (AddHash_all_run a xs h A Ha HA Hxs)|].
  split.
  { apply (AddHash_all_run b ys (<[a := A1]> h) B); [|exact HB|exact Hys].
    now rewrite lookup_insert_ne. }
  split.
  { apply (Merge_run (<[b := B1]> (<[a := A1]> h)) a b A1 B1);
      [|apply lookup_insert_eq|exact HA1|exact HB1].
    rewrite lookup_insert_ne by congruence. apply lookup_insert_eq. }
  split; [apply (Merge_run h a b A B); assumption|].
  split.
  { apply (AddHash_all_run a (xs ++ ys) (<[a := AB]> h) AB).
    - apply lookup_insert_eq.
    - now apply merged_wf.
    - apply Forall_app. now split. }
  split; [apply lookup_insert_eq|].
  rewrite lookup_insert_eq. cbn. f_equal. f_equal.
  symmetry. apply merge_registers_after; [lia|assumption..].
Qed.

Lemma Merge_of_streams_witness :
  exists h1 h2 h3 g1 g2 A',
    AddHash_all 1 [5; 2 ^ 60] store_two = Some (tt, h1) /\
    AddHash_all 2 [2 ^ 63; 5] h1 = Some (tt, h2) /\
    Merge 1 2 h2 = Some (tt, h3) /\
    Merge 1 2 store_two = Some (tt, g1) /\
    AddHash_all 1 ([5; 2 ^ 60] ++ [2 ^ 63; 5]) g1 = Some (tt, g2) /\
    h3 !! 1%positive = Some A' /\ g2 !! 1%positive = Some A'.
Proof.
  apply (Merge_of_streams store_two 1 2 sketch_empty sketch_one
           [5; 2 ^ 60] [2 ^ 63; 5]);
    first [discriminate | exact store_two_1 | exact store_two_2
          | exact sketch_empty_wf | exact sketch_one_wf
          | repeat constructor; unfold is_uint64; lia].
Defined.

(** ** Registers hold ranks *)

Lemma add_register_bounded regs x :
  is_uint64 x ->
  Forall (fun v => 0 <= v <= 64 - precision + 1) regs ->
  Forall (fun v => 0 <= v <= 64 - precision + 1) (add_register regs x).
Proof.
  intros Hx Hb. unfold add_register.
  destruct (regs !! _) as [r|] eqn:Hr; [|exact Hb].
  apply Forall_insert; [exact Hb|].
  pose proof (rank_positive x Hx) as Hrank.
  pose proof (proj1 (Forall_lookup _ _) Hb _ _ Hr) as Hrb. cbv beta in Hrb.
  unfold precision in *. lia.
Qed.

Lemma merge_registers_bounded a b :
  Forall (fun v => 0 <= v <= 64 - precision + 1) a ->
  Forall (fun v => 0 <= v <= 64 - precision + 1) b ->
  Forall (fun v => 0 <= v <= 64 - precision + 1) (merge_registers a b).
Proof.
  intros Ha Hb. apply Forall_lookup. intros j w Hw.
  unfold merge_registers in Hw.
  apply lookup_zip_with_Some in Hw as (u & v & -> & Hu & Hv).
  pose proof (proj1 (Forall_lookup _ _) Ha _ _ Hu) as Hub.
  pose proof (proj1 (Forall_lookup _ _) Hb _ _ Hv) as Hvb.
  cbv beta in *. lia.
Qed.

Lemma store_ok_insert (h : store) l s :
  store_ok h -> wf_sketch s -> registers_bounded s -> store_ok (<[l := s]> h).
Proof.
  intros Hh Hs Hb l' t. destruct (decide (l = l')) as [<-|Hne].
  - rewrite lookup_insert_eq. intros [= <-]. now split.
  - rewrite lookup_insert_ne by exact Hne. apply Hh.
Qed.

Section Ranks.
Context `{MetroPkg}.

Lemma AddHash_ok h llb s x :
  store_ok h -> h !! llb = Some s -> is_uint64 x ->
  exists h', AddHash llb x h = Some (tt, h') /\ store_ok h'.
Proof.
  intros Hh Hl Hx. destruct (Hh _ _ Hl) as [Hwf Hb].
  eexists. split; [apply (AddHash_step h llb s x Hl Hwf Hx)|].
  apply store_ok_insert; [exact Hh| |].
  - unfold wf_sketch in *. cbn. now rewrite add_register_length.
  - unfold registers_bounded in *. cbn. now apply add_register_bounded.
Qed.

(** X11. Registers hold ranks for the whole life of a sketch: in a store
    whose sketches all have [m] registers with values from 0 to
    [64 - precision + 1] = 51, a [New], an [AddHash], an [Add] or a
    [Merge] succeeds and leaves a store with the same property, so a
    register never needs more than six of its eight bits. *)
Theorem registers_stay_ranks (h : store) (llb other : loc) (s o : LogLogBeta)
    (x : Z) (value : list Z) :
  store_ok h -> h !! llb = Some s -> h !! other = Some o -> is_uint64 x ->
  (exists l h', New h = Some (l, h') /\ store_ok h') /\
  (exists h', AddHash llb x h = Some (tt, h') /\ store_ok h') /\
  (exists h', Add llb value h = Some (tt, h') /\ store_ok h') /\
  (exists h', Merge llb other h = Some (tt, h') /\ store_ok h').
Proof.
  intros Hh Hl Ho Hx.
  destruct (Hh _ _ Hl) as [Hs Hsb]. destruct (Hh _ _ Ho) as [Hwo Hob].
  split.
  { eexists _, _. split; [reflexivity|].
    apply store_ok_insert; [exact Hh| |].
    - unfold wf_sketch. cbn. apply length_replicate.
    - unfold registers_bounded. cbn. apply Forall_replicate.
      unfold precision. lia. }
  split; [now apply (AddHash_ok h llb s)|].
  split; [apply (AddHash_ok h llb s); auto; apply wrap_range; lia|].
  eexists. split; [apply (Merge_run h llb other s o); assumption|].
  apply store_ok_insert; [exact Hh|now apply merged_wf|].
  unfold registers_bounded in *. cbn. now apply merge_registers_bounded.
Qed.

Lemma Add_all_as_hashes llb vs h :
  Add_all llb vs h
    = AddHash_all llb (map (fun v => wrap 64 (Hash64 v 1337)) vs) h.
Proof.
  revert h. induction vs as [|v vs IH]; intros h; [reflexivity|].
  cbn [Add_all AddHash_all map]. unfold Add at 1, bind.
  destruct (AddHash llb _ h) as [[[] h']|]; [apply IH|reflexivity].
Qed.

(** X12. Distinct counting at the level of values: two streams of byte
    strings with the same elements, whatever their order and however
    often a value repeats, ingested by [Add] from the same state, leave
    the same store (and hence the same estimate). *)
Theorem Add_all_same_elements (h : store) (llb : loc) (s : LogLogBeta)
    (vs ws : list (list Z)) :
  h !! llb = Some s -> wf_sketch s ->
  (forall v, v ∈ vs <-> v ∈ ws) ->
  exists h', Add_all llb vs h = Some (tt, h') /\
             Add_all llb ws h = Some (tt, h').
Proof.
  intros Hl Hwf Hset. rewrite !Add_all_as_hashes.
  assert (Hu : forall us : list (list Z),
            Forall is_uint64 (map (fun v => wrap 64 (Hash64 v 1337)) us)).
  { intros us. apply Forall_forall. intros x Hx.
    apply list_elem_of_fmap in Hx as (v & -> & _). apply wrap_range. lia. }
  eexists. split.
  - apply (AddHash_all_run llb _ h s Hl Hwf (Hu vs)).
  - rewrite (AddHash_all_run llb _ h s Hl Hwf (Hu ws)).
    rewrite (registers_after_same_elements _
               (map (fun v => wrap 64 (Hash64 v 1337)) vs)); auto.
    intros x. split; intros Hx;
      apply list_elem_of_fmap in Hx as (v & -> & Hv);
      apply list_elem_of_fmap; exists v; (split; [reflexivity|]);
      now apply Hset.
Qed.

End Ranks.

Lemma sketch_empty_bounded : registers_bounded sketch_empty.
Proof.
  unfold registers_bounded. cbn. apply Forall_replicate. unfold precision. lia.
Defined.

Lemma sketch_one_bounded : registers_bounded sketch_one.
Proof.
  unfold registers_bounded. cbn.
  apply Forall_insert; [apply Forall_replicate|]; unfold precision; lia.
Defined.

Lemma store_two_ok : store_ok store_two.
Proof.
  unfold store_two.
  apply store_ok_insert;
    [|exact sketch_empty_wf|exact sketch_empty_bounded].
  apply store_ok_insert;
    [|exact sketch_one_wf|exact sketch_one_bounded].
  intros l s Hl. rewrite lookup_empty in Hl. discriminate.
Defined.

Lemma registers_stay_ranks_witness :
  (exists l h', New store_two = Some (l, h') /\ store_ok h') /\
  (exists h', AddHash 1 (2 ^ 63) store_two = Some (tt, h') /\ store_ok h') /\
  (exists h', @Add Ref.metro 1 [97] store_two = Some (tt, h') /\ store_ok h') /\
  (exists h', Merge 1 2 store_two = Some (tt, h') /\ store_ok h').
Proof.
  apply (@registers_stay_ranks Ref.metro store_two 1 2 sketch_empty sketch_one
           (2 ^ 63) [97] store_two_ok store_two_1 store_two_2).
  unfold is_uint64. lia.
Defined.

Lemma Add_all_same_elements_witness :
  exists h', @Add_all Ref.metro 1 [[97]; [98]; [97]] store_two = Some (tt, h') /\
             @Add_all Ref.metro 1 [[98]; [97]] store_two = Some (tt, h').
Proof.
  apply (@Add_all_same_elements Ref.metro store_two 1 sketch_empty
           [[97]; [98]; [97]] [[98]; [97]] store_two_1 sketch_empty_wf).
  intros v. rewrite !elem_of_cons, !elem_of_nil. tauto.
Defined.

(** ** More on the codec and on dead pointers *)

Section CodecMore.
Context `{MathPkg} `{Platform} `{MetroPkg} `{GobPkg}.

(** X13. Decoding then encoding: after a successful [UnmarshalBinary]
    the receiver is exactly the decoded registers and alpha, whatever it
    held before, every other sketch is untouched, and a following
    [MarshalBinary] encodes those two fields with [Version] 1: the
    version read from the payload is not kept. *)
Theorem UnmarshalBinary_then_MarshalBinary (h : store) (llb : loc)
    (s : LogLogBeta) (data : list Z) (sllb : savedLLB) :
  h !! llb = Some s ->
  gob_decode data savedLLB_zero = (sllb, None) ->
  exists h',
    UnmarshalBinary llb data h = Some (None, h') /\
    h' !! llb = Some {| llb_registers := Registers sllb;
                        llb_alpha := Alpha sllb |} /\
    (forall l, l <> llb -> h' !! l = h !! l) /\
    MarshalBinary llb h' =
      Some (gob_encode {| Registers := Registers sllb; Alpha := Alpha sllb;
                          Version := 1 |}, h').
Proof.
  intros Hl Hdec. eexists.
  split; [apply (UnmarshalBinary_success h llb s data sllb Hl Hdec)|].
  split; [apply lookup_insert_eq|].
  split; [intros l Hne; now rewrite lookup_insert_ne|].
  rewrite (MarshalBinary_run _ llb
             {| llb_registers := Registers sllb; llb_alpha := Alpha sllb |}
             (lookup_insert_eq _ _ _)).
  reflexivity.
Qed.

(** X14. Dead pointers. On a receiver that is not live (nil), [AddHash],
    [Add], [Cardinality], [Merge] and [MarshalBinary] panic;
    [UnmarshalBinary] reports the decoder's error without touching the
    receiver when decoding fails, and panics only when decoding succeeds.
    [Merge] of a dead argument into a live sketch panics as well. *)
Theorem dead_pointers (h : store) (dead llb : loc) (s : LogLogBeta)
    (x : Z) (value : list Z) :
  h !! dead = None -> h !! llb = Some s -> wf_sketch s ->
  AddHash dead x h = None /\
  Add dead value h = None /\
  Cardinality dead h = None /\
  Merge dead llb h = None /\
  MarshalBinary dead h = None /\
  (forall data sllb e,
     gob_decode data savedLLB_zero = (sllb, Some e) ->
     UnmarshalBinary dead data h = Some (Some e, h)) /\
  (forall data sllb,
     gob_decode data savedLLB_zero = (sllb, None) ->
     UnmarshalBinary dead data h = None) /\
  Merge llb dead h = None.
Proof.
  intros Hd Hl Hwf.
  assert (Hload : load dead h = None) by (unfold load; now rewrite Hd).
  assert (Hget : forall i, get_register dead i h = None)
    by (intros i; unfold get_register, bind; now rewrite Hload).
  assert (Hadd : forall y, AddHash dead y h = None).
  { intros y. unfold AddHash. destruct (getPosVal y) as [k val].
    unfold bind. now rewrite Hget. }
  split; [apply Hadd|]. split; [apply Hadd|].
  split; [unfold Cardinality, bind; now rewrite Hload|].
  split; [unfold Merge, bind; now rewrite Hload|].
  split; [unfold MarshalBinary, bind; now rewrite Hload|].
  split; [intros data sllb e; apply UnmarshalBinary_error|].
  split.
  { intros data sllb Hdec. unfold UnmarshalBinary. rewrite Hdec.
    unfold set_registers, bind. now rewrite Hload. }
  unfold Merge. rewrite (bind_run _ _ _ _ _ (load_run _ _ _ Hl)).
  destruct (llb_registers s) as [|v vs] eqn:Hregs.
  - unfold wf_sketch in Hwf. rewrite Hregs in Hwf. cbn in Hwf.
    pose proof m_value. lia.
  - cbn [Merge_loop]. unfold bind. now rewrite Hget.
Qed.

End CodecMore.

Lemma UnmarshalBinary_then_MarshalBinary_witness :
  exists h',
    @UnmarshalBinary Ref.gob 1 payload_half store_two = Some (None, h') /\
    h' !! 1%positive
      = Some {| llb_registers := replicate (Z.to_nat m) 0;
                llb_alpha := 0.5%float |} /\
    (forall l, l <> 1%positive -> h' !! l = store_two !! l) /\
    @MarshalBinary Ref.gob 1 h' =
      Some (@gob_encode Ref.gob
              {| Registers := replicate (Z.to_nat m) 0; Alpha := 0.5%float;
                 Version := 1 |}, h').
Proof.
  apply (@UnmarshalBinary_then_MarshalBinary Ref.gob store_two 1 sketch_empty
           payload_half
           {| Registers := replicate (Z.to_nat m) 0; Alpha := 0.5%float;
              Version := 1 |} store_two_1).
  vm_compute. reflexivity.
Defined.

Lemma dead_pointers_witness :
  AddHash 7 5 store_two = None /\
  @Add Ref.metro 7 [97] store_two = None /\
  @Cardinality Ref.math Ref.platform 7 store_two = None /\
  Merge 7 1 store_two = None /\
  @MarshalBinary Ref.gob 7 store_two = None /\
  (forall data sllb e,
     @gob_decode Ref.gob data savedLLB_zero = (sllb, Some e) ->
     @UnmarshalBinary Ref.gob 7 data store_two = Some (Some e, store_two)) /\
  (forall data sllb,
     @gob_decode Ref.gob data savedLLB_zero = (sllb, None) ->
     @UnmarshalBinary Ref.gob 7 data store_two = None) /\
  Merge 1 7 store_two = None.
Proof.
  apply (@dead_pointers Ref.math Ref.platform Ref.metro Ref.gob store_two 7 1
           sketch_empty 5 [97]); [reflexivity|exact store_two_1|exact sketch_empty_wf].
Defined.


(** ** The estimator at saturation *)

Section Saturation.
Context `{MathPkg} `{Platform}.

Lemma sum_spec_replicate (n : nat) (v : Z) :
  sum_spec (replicate n v) =
  Nat.iter n (fun a => (a + pow2_neg v)%float) 0%float.
Proof.
  unfold sum_spec. generalize 0%float.
  induction n as [|n IH]; intros a; [reflexivity|].
  cbn [replicate fold_left]. rewrite IH. symmetry.
  exact (Nat.iter_succ_r n (fun a => (a + pow2_neg v)%float) a).
Qed.

Lemma count_zeros_replicate_nonzero (n : nat) (v : Z) :
  v <> 0 -> count_zeros (replicate n v) = 0.
Proof.
  intros Hv. induction n as [|n IH]; [reflexivity|].
  cbn [replicate]. rewrite count_zeros_cons, IH.
  destruct (Z.eqb_spec v 0); [contradiction|reflexivity].
Qed.

(** A float whose integer part is 2^64 or more has no [uint64]. *)
Lemma uint64_of_float64_above (f : float) (t : Z) :
  trunc_SF (Prim2SF f) = Some t -> 2 ^ 64 <= t ->
  uint64_of_float64 f = wrap 64 (uint64_unrepresentable f).
Proof.
  intros Ht Hle. unfold uint64_of_float64. rewrite Ht.
  destruct (Z.ltb_spec t (2 ^ 64)); [lia|].
  rewrite andb_false_r. reflexivity.
Qed.

(** X15. On a saturated sketch (every register at the largest rank, 51,
    the alpha that of [New]), when [math.Pow(2, 51)] is exact and the
    correction [beta(0)] is a zero, the float that [Cardinality] converts
    is [alpha * m * m / 2^(-37)], about 2.66e19: it is above
    [MaxUint64], so the result is not the estimate but whatever the
    platform's out-of-range conversion to [uint64] yields. *)
Theorem Cardinality_saturated (h : store) (llb : loc) (s : LogLogBeta) :
  h !! llb = Some s ->
  llb_registers s = replicate (Z.to_nat m) 51 ->
  llb_alpha s = alpha (float64_of_Z m) ->
  Pow 2 51 = 2251799813685248%float ->
  (beta 0 =? 0)%float = true ->
  Cardinality llb h
    = Some (wrap 64 (uint64_unrepresentable estimate_saturated), h) /\
  trunc_SF (Prim2SF estimate_saturated) = Some 26609520579303645184 /\
  MaxUint64 < 26609520579303645184.
Proof.
  intros Hl Hregs Ha Hpow Hb.
  assert (Ht : trunc_SF (Prim2SF estimate_saturated)
               = Some 26609520579303645184) by (vm_compute; reflexivity).
  split; [|split; [exact Ht|reflexivity]].
  rewrite (Cardinality_run h llb s Hl)
    by (unfold wf_sketch; rewrite Hregs; apply length_replicate).
  unfold Cardinality_spec.
  rewrite Hregs, Ha, sum_spec_replicate.
  rewrite count_zeros_replicate_nonzero by discriminate.
  unfold pow2_neg.
  replace (float64_of_Z 51) with 51%float by (vm_compute; reflexivity).
  replace (float64_of_Z 0) with 0%float by (vm_compute; reflexivity).
  rewrite Hpow. change (beta_spec 0) with (beta 0).
  assert (Hsum : Nat.iter (Z.to_nat m)
                   (fun a => (a + 1 / 2251799813685248)%float) 0%float
                 = Z.ldexp 1 (-37)) by (vm_compute; reflexivity).
  rewrite Hsum.
  assert (E : forall b, b = 0%float \/ b = (-0)%float ->
            (alpha (float64_of_Z m) * 16384 * (16384 - 0)
             / (b + Z.ldexp 1 (-37)))%float = estimate_saturated)
    by (intros b [-> | ->]; vm_compute; reflexivity).
  rewrite (E _ (float_zero_cases _ Hb)).
  rewrite (uint64_of_float64_above _ _ Ht) by (vm_compute; discriminate).
  reflexivity.
Qed.

End Saturation.

Lemma Cardinality_saturated_witness :
  @Cardinality math_exact_at_one Ref.platform 1 store_saturated
    = Some (wrap 64 (@uint64_unrepresentable Ref.platform estimate_saturated),
            store_saturated) /\
  trunc_SF (Prim2SF estimate_saturated) = Some 26609520579303645184 /\
  MaxUint64 < 26609520579303645184.
Proof.
  apply (@Cardinality_saturated math_exact_at_one Ref.platform
           store_saturated 1 sketch_saturated);
    [reflexivity|reflexivity|reflexivity
    |vm_compute; reflexivity|vm_compute; reflexivity].
Defined.
